(** * lui: a terminal client for Lemmy

    A shallow embedding of the parts of [src/lui/_main.py] and of the
    first prototype [main.py] that carry behaviour: the kitty graphics
    encoder ([KittyImage]), the login form ([LoginForm.log_in]), the
    search action of the feed ([LemmyView.action_search]) and the
    selection cursor of the prototype ([PostView._move_selection]).

    The file has two parts.  Part I holds the definitions, one module per
    Python class or library.  Part II holds the lemmas. *)

From Stdlib Require Import List ZArith NArith Lia String Ascii Bool Arith.
From Stdlib Require Import DecimalString.
From Stdlib.Strings Require Import Byte.
From Equations Require Import Equations.
Import ListNotations.

Set Implicit Arguments.
Open Scope string_scope.
Open Scope list_scope.

(* ################################################################# *)
(** * Part I: the program *)

(** Python [bytes]. *)
Definition bytes := list byte.

(** [s.encode("ascii")] for a string of ASCII characters. *)
Definition encode_ascii (s : string) : bytes := list_byte_of_string s.

(** [bytes.decode()] of an ASCII buffer. *)
Definition decode_ascii (b : bytes) : string := string_of_list_byte b.

(** Truth value of a [bytes] or [list] object: empty is false. *)
Definition truthy {A} (l : list A) : bool :=
  match l with [] => false | _ :: _ => true end.

(** The slices [l[:n]] and [l[n:]] for a count [n] that is not
    negative. *)
Fixpoint slice_to {A} (n : N) (l : list A) : list A :=
  match l with
  | [] => []
  | x :: l' => if N.eqb n 0 then [] else x :: slice_to (N.pred n) l'
  end.

Fixpoint slice_from {A} (n : N) (l : list A) : list A :=
  match l with
  | [] => []
  | x :: l' => if N.eqb n 0 then l else slice_from (N.pred n) l'
  end.

(** Exceptions the modelled code can raise or let through. *)
Inductive exn : Type :=
| ConnectionError
| UnidentifiedImageError
| IndexError.

(** Outcome of a call that can raise. *)
Inductive result (A : Type) : Type :=
| Ok (a : A)
| Raise (e : exn).
Arguments Ok {A} a.
Arguments Raise {A} e.

(** A computation over a mutable state [St] that returns an [A] or
    raises; the state outlives the exception. *)
Definition M (St A : Type) : Type := St -> result A * St.

Definition ret {St A} (a : A) : M St A := fun s => (Ok a, s).

Definition raise {St A} (e : exn) : M St A := fun s => (Raise e, s).

Definition bind {St A B} (m : M St A) (k : A -> M St B) : M St B :=
  fun s =>
    match m s with
    | (Ok a, s') => k a s'
    | (Raise e, s') => (Raise e, s')
    end.

Definition get {St} : M St St := fun s => (Ok s, s).

Definition modify {St} (f : St -> St) : M St unit := fun s => (Ok tt, f s).

Notation "x <- m ;; k" := (bind m (fun x => k))
  (at level 61, m at next level, right associativity).
Notation "m ;; k" := (bind m (fun _ => k))
  (at level 61, right associativity).

(** [for x in xs: body(x)]. *)
Fixpoint for_each {St A} (xs : list A) (body : A -> M St unit) : M St unit :=
  match xs with
  | [] => ret tt
  | x :: xs' => body x ;; for_each xs' body
  end.

(** [n] calls of [m] in a row. *)
Fixpoint times {St} (n : nat) (m : M St unit) : M St unit :=
  match n with
  | O => ret tt
  | S n' => m ;; times n' m
  end.

(** ** Python strings *)

(** [s.startswith(p)]. *)
Definition startswith (s p : string) : bool := String.prefix p s.

(** [c in chars]. *)
Fixpoint char_in (c : ascii) (chars : string) : bool :=
  match chars with
  | EmptyString => false
  | String d chars' => Ascii.eqb c d || char_in c chars'
  end.

(** [s.lstrip(chars)]. *)
Fixpoint lstrip (s chars : string) : string :=
  match s with
  | EmptyString => EmptyString
  | String c s' => if char_in c chars then lstrip s' chars else s
  end.

(** [s.rstrip(chars)]. *)
Fixpoint rstrip (s chars : string) : string :=
  match s with
  | EmptyString => EmptyString
  | String c s' =>
      match rstrip s' chars with
      | EmptyString => if char_in c chars then EmptyString else String c EmptyString
      | r => String c r
      end
  end.

(** [s.strip(chars)]. *)
Definition strip (s chars : string) : string := rstrip (lstrip s chars) chars.

(** Truth value of a string: empty is false. *)
Definition nonempty (s : string) : bool :=
  match s with EmptyString => false | String _ _ => true end.

(* ================================================================= *)
(** ** [base64.standard_b64encode] *)

Module Base64.

(** The alphabet of RFC 4648, section 4. *)
Definition alphabet : bytes :=
  encode_ascii
    "ABCDEFGHIJKLMNOPQRSTUVWXYZabcdefghijklmnopqrstuvwxyz0123456789+/".

Definition pad : byte := "="%byte.

(** The character of a six-bit value. *)
Definition char_of (s : N) : byte := nth (N.to_nat s) alphabet pad.

(** Position of a character in the alphabet. *)
Fixpoint index_in (c : byte) (l : bytes) (i : N) : option N :=
  match l with
  | [] => None
  | x :: l' => if Byte.eqb c x then Some i else index_in c l' (N.succ i)
  end.

Definition value_of (c : byte) : option N := index_in c alphabet 0%N.

Definition byte_of (n : N) : byte :=
  match Byte.of_N n with Some b => b | None => x00 end.

Section Groups.
Local Open Scope N_scope.

(** Three bytes make four characters: the 24 bits are cut in
    groups of six, most significant first. *)
Definition enc3 (a b c : byte) : bytes :=
  let x := Byte.to_N a in
  let y := Byte.to_N b in
  let z := Byte.to_N c in
  [ char_of (x / 4);
    char_of ((x mod 4) * 16 + y / 16);
    char_of ((y mod 16) * 4 + z / 64);
    char_of (z mod 64) ].

(** Two trailing bytes: three characters and one pad. *)
Definition enc2 (a b : byte) : bytes :=
  let x := Byte.to_N a in
  let y := Byte.to_N b in
  [ char_of (x / 4);
    char_of ((x mod 4) * 16 + y / 16);
    char_of ((y mod 16) * 4);
    pad ].

(** One trailing byte: two characters and two pads. *)
Definition enc1 (a : byte) : bytes :=
  let x := Byte.to_N a in
  [ char_of (x / 4); char_of ((x mod 4) * 16); pad; pad ].

Definition dec3 (s0 s1 s2 s3 : N) : bytes :=
  [ byte_of (s0 * 4 + s1 / 16);
    byte_of ((s1 mod 16) * 16 + s2 / 4);
    byte_of ((s2 mod 4) * 64 + s3) ].

Definition dec2 (s0 s1 s2 : N) : bytes :=
  [ byte_of (s0 * 4 + s1 / 16);
    byte_of ((s1 mod 16) * 16 + s2 / 4) ].

Definition dec1 (s0 s1 : N) : bytes :=
  [ byte_of (s0 * 4 + s1 / 16) ].
End Groups.

(** [standard_b64encode(data)]. *)
Fixpoint encode (data : bytes) : bytes :=
  match data with
  | [] => []
  | [a] => enc1 a
  | [a; b] => enc2 a b
  | a :: b :: c :: rest => enc3 a b c ++ encode rest
  end.

(** The inverse direction, [b64decode]: groups of four characters,
    padding allowed in the last group only.  [None] stands for
    [binascii.Error]. *)
Fixpoint decode (text : bytes) : option bytes :=
  match text with
  | [] => Some []
  | c0 :: c1 :: c2 :: c3 :: rest =>
      match value_of c0, value_of c1 with
      | Some s0, Some s1 =>
          if Byte.eqb c3 pad then
            match rest with
            | [] =>
                if Byte.eqb c2 pad then Some (dec1 s0 s1)
                else option_map (dec2 s0 s1) (value_of c2)
            | _ :: _ => None
            end
          else
            match value_of c2, value_of c3, decode rest with
            | Some s2, Some s3, Some out => Some (dec3 s0 s1 s2 s3 ++ out)
            | _, _, _ => None
            end
      | _, _ => None
      end
  | _ => None
  end.

(** The characters that the encoder can write: the alphabet and the
    pad. *)
Definition printable (c : byte) : bool :=
  existsb (Byte.eqb c) (pad :: alphabet).

End Base64.

(* ================================================================= *)
(** ** [class KittyImage] *)

Module Kitty.

(** Values of the keyword arguments of a graphics command. *)
Inductive value : Type :=
| VStr (s : string)
| VInt (z : Z).

(** [f"{v}"]. *)
Definition format_value (v : value) : string :=
  match v with
  | VStr s => s
  | VInt z => NilZero.string_of_int (Z.to_int z)
  end.

(** A keyword dictionary, in insertion order. *)
Definition kwargs := list (string * value).

(** [",".join(items)]. *)
Fixpoint join (sep : string) (items : list string) : string :=
  match items with
  | [] => ""
  | [s] => s
  | s :: rest => (s ++ sep ++ join sep rest)%string
  end.

Definition ESC : byte := x1b.

(** The control data of a frame: [key=value] items with commas
    between them. *)
Definition control_data (cmd : kwargs) : bytes :=
  encode_ascii
    (join "," (map (fun kv => (fst kv ++ "=" ++ format_value (snd kv))%string) cmd)).

(** [serialize_gr_command], called with keywords.  [payload] is popped
    first, so it is a separate argument here; [cmd] is what is left
    of the dictionary. *)
Definition serialize_gr_command (payload : option bytes) (cmd : kwargs)
  : bytes :=
  let cmd :=
    join "," (map (fun kv => (fst kv ++ "=" ++ format_value (snd kv))%string) cmd) in
  let ans := [ [ESC; "_"%byte; "G"%byte]; encode_ascii cmd ] in
  let ans :=
    match payload with
    | Some p => if truthy p then ans ++ [ [";"%byte]; p ] else ans
    | None => ans
    end in
  let ans := ans ++ [ [ESC; "\"%byte] ] in
  List.concat ans.

Lemma slice_from_length {A} (l : list A) :
  forall n, List.length (slice_from n l) = List.length l - N.to_nat n.
Proof.
  induction l as [|x l IH]; intros n; cbn [slice_from List.length].
  - reflexivity.
  - destruct (N.eqb_spec n 0) as [->|Hn].
    + reflexivity.
    + rewrite IH. lia.
Qed.

(** The [while data:] loop of [write_chunked].  [data] is the base64
    text still to send, [cmd] the keywords still to send, [buf] the
    contents of [self.buf].  The loop ends because every round takes a
    chunk off a text that is not empty. *)
Equations write_loop (data : bytes) (cmd : kwargs) (buf : bytes)
  : bytes by wf (List.length data) lt :=
  write_loop [] cmd buf := buf;
  write_loop (b :: rest) cmd buf :=
    let data := b :: rest in
    let chunk := slice_to 4096 data in
    let data := slice_from 4096 data in
    let m := if truthy data then 1%Z else 0%Z in
    let buf := buf ++ serialize_gr_command (Some chunk) (("m", VInt m) :: cmd) in
    write_loop data [] buf.
Next Obligation.
  change (List.length (slice_from 4096 (b :: rest)) < List.length (b :: rest)).
  rewrite slice_from_length. cbn [List.length]. lia.
Qed.

(** The calls of [serialize_gr_command] that the loop makes, in
    order, each with its payload and its other keywords.  The loop
    itself only keeps their concatenation; the statements about single
    frames go through this list. *)
Equations sent (data : bytes) (cmd : kwargs)
  : list (bytes * kwargs) by wf (List.length data) lt :=
  sent [] cmd := [];
  sent (b :: rest) cmd :=
    let data := b :: rest in
    let chunk := slice_to 4096 data in
    let data := slice_from 4096 data in
    let m := if truthy data then 1%Z else 0%Z in
    (chunk, ("m", VInt m) :: cmd) :: sent data [].
Next Obligation.
  change (List.length (slice_from 4096 (b :: rest)) < List.length (b :: rest)).
  rewrite slice_from_length. cbn [List.length]. lia.
Qed.

(** The frame of one call. *)
Definition frame_bytes (pc : bytes * kwargs) : bytes :=
  serialize_gr_command (Some (fst pc)) (snd pc).

(** [write_chunked], called with keywords [cmd]: the new contents
    of [self.buf], given the contents of [self.png] and of [self.buf].
    This is the call as [__init__] makes it: [self.buf] stands at its
    end, so that [write] appends, and [cmd] has no key [m] or
    [payload] to clash with the keywords of the call of
    [serialize_gr_command]. *)
Definition write_chunked (png : bytes) (buf : bytes) (cmd : kwargs) : bytes :=
  let data := Base64.encode png in
  write_loop data cmd buf.

(** The keywords of the call in [__init__]: [a="T", f=100]. *)
Definition init_keywords : kwargs := [("a", VStr "T"); ("f", VInt 100)].

Record KittyImage : Type := {
  png : bytes;
  buf : bytes;
  segment : string
}.

Section Init.
(** The collaborators of [__init__]: [requests.get(url).content],
    [Image.open] and [img.resize(size=(300, 300)).save(_, format="png")];
    the last is taken for an image that can be saved as PNG. *)
Variable Image : Type.
Variable requests_get : string -> result bytes.
Variable Image_open : bytes -> result Image.
Variable resize_save_png : Image -> bytes.

(** [KittyImage.__init__(self, url)]. *)
Definition init (url : string) : result KittyImage :=
  match requests_get url with
  | Raise e => Raise e
  | Ok content =>
      match Image_open content with
      | Raise e => Raise e
      | Ok img =>
          let png := resize_save_png img in
          let buf := [] in
          let buf := write_chunked png buf init_keywords in
          Ok {| png := png; buf := buf; segment := decode_ascii buf |}
      end
  end.
End Init.

End Kitty.


(* ================================================================= *)
(** ** [class PixelImage] *)

Module Pixel.

Section Init.
(** The collaborators of [__init__]: [requests.get(url).content],
    [Image.open] and [Pixels.from_image(img.resize(size=(30, 30)))]. *)
Variable Image : Type.
Variable Pixels : Type.
Variable requests_get : string -> result bytes.
Variable Image_open : bytes -> result Image.
Variable pixels_from_resized : Image -> Pixels.

Record PixelImage : Type := {
  segment : Pixels
}.

(** [PixelImage.__init__(self, url)]. *)
Definition init (url : string) : result PixelImage :=
  match requests_get url with
  | Raise e => Raise e
  | Ok content =>
      match Image_open content with
      | Raise e => Raise e
      | Ok img => Ok {| segment := pixels_from_resized img |}
      end
  end.
End Init.

End Pixel.

(* ================================================================= *)
(** ** The receiving end of the graphics protocol *)

(** What a terminal does with the stream, after the framing of the
    protocol: a frame is [ESC _ G control ; payload ESC \], the part
    from [;] to the payload's end being optional.  This is the reader
    against which the writer above is checked; it is no part of
    [_main.py]. *)
Module Terminal.

Record frame : Type := {
  control : bytes;
  payload : bytes
}.

(** Remove a fixed prefix. *)
Fixpoint expect (p s : bytes) : option bytes :=
  match p, s with
  | [], _ => Some s
  | x :: p', y :: s' => if Byte.eqb x y then expect p' s' else None
  | _ :: _, [] => None
  end.

(** Cut [s] in front of its first byte that satisfies [stop]. *)
Fixpoint scan (stop : byte -> bool) (s : bytes) : bytes * bytes :=
  match s with
  | [] => ([], [])
  | x :: s' =>
      if stop x then ([], s)
      else let (u, v) := scan stop s' in (x :: u, v)
  end.

Definition is_esc (b : byte) : bool := Byte.eqb b Kitty.ESC.
Definition is_semi (b : byte) : bool := Byte.eqb b ";"%byte.

Definition trailer : bytes := [Kitty.ESC; "\"%byte].

(** One frame off the front of the stream. *)
Definition read_frame (s : bytes) : option (frame * bytes) :=
  match expect [Kitty.ESC; "_"%byte; "G"%byte] s with
  | None => None
  | Some s1 =>
      let (ctl, s2) := scan (fun b => is_semi b || is_esc b) s1 in
      match s2 with
      | x :: s3 =>
          if is_semi x then
            let (pl, s4) := scan is_esc s3 in
            option_map (fun r => ({| control := ctl; payload := pl |}, r))
                       (expect trailer s4)
          else
            option_map (fun r => ({| control := ctl; payload := [] |}, r))
                       (expect trailer s2)
      | [] => None
      end
  end.

(** All frames of a stream; [fuel] bounds their number. *)
Fixpoint read_frames (fuel : nat) (s : bytes) : option (list frame) :=
  match s with
  | [] => Some []
  | _ :: _ =>
      match fuel with
      | O => None
      | S fuel' =>
          match read_frame s with
          | None => None
          | Some (fr, rest) =>
              option_map (cons fr) (read_frames fuel' rest)
          end
      end
  end.

(** A stream of [n] bytes holds fewer than [n] frames. *)
Definition frames (s : bytes) : option (list frame) :=
  read_frames (List.length s) s.

(** The frame that the reader makes of one call of the writer. *)
Definition frame_of (pc : bytes * Kitty.kwargs) : frame :=
  {| control := Kitty.control_data (snd pc); payload := fst pc |}.

(** A call whose frame the reader can take apart: the payload is not
    empty and holds no escape, the control data holds neither a
    semicolon nor an escape. *)
Definition legible (pc : bytes * Kitty.kwargs) : Prop :=
  truthy (fst pc) = true /\
  forallb (fun b => negb (is_esc b)) (fst pc) = true /\
  forallb (fun b => negb (is_semi b || is_esc b))
          (Kitty.control_data (snd pc)) = true.

(** A byte that [bytes.decode()] takes: below 128. *)
Definition seven_bit (b : byte) : bool := N.ltb (Byte.to_N b) 128.

(** The payloads of the frames, put together in order. *)
Definition reassemble (frs : list frame) : bytes :=
  List.concat (map payload frs).

(** Cut at every separator. *)
Fixpoint split (sep : byte) (s : bytes) : list bytes :=
  match s with
  | [] => [[]]
  | x :: s' =>
      if Byte.eqb x sep then [] :: split sep s'
      else match split sep s' with
           | [] => [[x]]
           | u :: us => (x :: u) :: us
           end
  end.

(** [key=value] *)
Definition field (item : bytes) : string * string :=
  let (k, v) := scan (fun b => Byte.eqb b "="%byte) item in
  (decode_ascii k, decode_ascii (tl v)).

(** The keys and values of a frame's control data. *)
Definition fields (fr : frame) : list (string * string) :=
  match control fr with
  | [] => []
  | c => map field (split ","%byte c)
  end.

(** The value of a key in a frame, if the frame carries the key. *)
Fixpoint lookup (key : string) (kvs : list (string * string)) : option string :=
  match kvs with
  | [] => None
  | (k, v) :: kvs' => if String.eqb key k then Some v else lookup key kvs'
  end.

Definition key (k : string) (fr : frame) : option string :=
  lookup k (fields fr).

End Terminal.

(* ================================================================= *)
(** ** The [pythorhead] client, at its interface *)

Module Lemmy.

(** Modelled from the spec: the members of [pythorhead.types.SearchType]
    are not in the repository; these are the result kinds of the
    specification's query.  The form starts on [Posts]. *)
Inductive SearchType : Type := Posts | Comments | Communities | Users.

(** Modelled from the spec: the members of [pythorhead.types.SortType]
    are not in the repository and the specification leaves them open;
    the form starts on [Active]. *)
Inductive SortType : Type := Active | Sort (name : string).

(** Modelled from the spec: the members of
    [pythorhead.types.ListingType] are not in the repository; these are
    the listing scopes of the specification's query. *)
Inductive ListingType : Type := Subscribed | All | Local.

(** The keywords of [Lemmy.search]. *)
Record query : Type := {
  q : string;
  type_ : SearchType;
  sort : SortType;
  listing_type : ListingType;
  limit : Z
}.

(** One element of [result["posts"]], reduced to the keys of its
    ["post"] entry that the client reads. *)
Record post_record : Type := {
  name : option string;
  body : option string;
  thumbnail_url : option string
}.

Section Client.
(** The node information document; the client only tests its truth
    value and compares two of them with [==]. *)
Variable NodeInfo : Type.

(** A [Lemmy] object.  [ident] is the identity of the object,
    [logged_in] tells whether [log_in] has stored a token in it. *)
Record t : Type := {
  ident : nat;
  instance : string;
  nodeinfo : option NodeInfo;
  logged_in : bool
}.

(** The remote side: what the instance at a URL answers to a
    request that gets through.  A request that fails, for which the
    client has no answer to index, and an instance that answers the
    same question differently the next time are left out. *)
Record server : Type := {
  discover : string -> option NodeInfo;
  authenticate : string -> string -> string -> bool;
  search : string -> bool -> query -> list post_record
}.
End Client.

End Lemmy.

(* ================================================================= *)
(** ** The widget library *)

Module Textual.

(** [Widget.remove_children()] returns an awaitable, and releases of
    the library differ in what has happened when the call returns.
    Some take the children out of the tree within the call.  Others
    only mark them there: the children leave the tree when the message
    loop runs again, which is after the handler that made the call has
    returned.  The repository names no release. *)
Inductive removal : Type :=
| Immediate
| Deferred.

End Textual.

(* ================================================================= *)
(** ** The application of [_main.py] *)

Module App.
Import Lemmy Textual.

(** [class Post(Static)]. *)
Record Post : Type := {
  title : string;
  body : string;
  thumbnail : option string
}.

Inductive widget : Type :=
| TheApp
| TheSearch.

Section WithServer.
Variable NodeInfo : Type.
(** [a == b] and [bool(a)] on node information. *)
Variable nodeinfo_eqb : NodeInfo -> NodeInfo -> bool.
Variable nodeinfo_bool : NodeInfo -> bool.
Variable remote : server NodeInfo.
(** What the installed release of the widget library does in
    [remove_children]. *)
Variable textual : removal.

Abbreviation Lemmy := (Lemmy.t NodeInfo).

(** What the program does to the outside, in program order: calls
    of the client and calls on widgets. *)
Inductive event : Type :=
| ApiLemmy (inst : string)
| ApiLogIn (inst user passwd : string)
| ApiSearch (inst : string) (qr : query)
| LabelUpdate (text : string)
| AddClass (w : widget) (cls : string)
| RemoveClass (w : widget) (cls : string)
| RemoveChildren
| Mount (p : Post)
| Focus (p : Post)
| CreateTask (url : string).

(** The widget tree, as far as the program reads or writes it. *)
Record state : Type := {
  (* LoginForm: the three inputs and the label *)
  inst_value : string;
  user_value : string;
  passwd_value : string;
  label : string;
  (* LemmyUIApp *)
  app_classes : list string;
  (* LemmyView.lemmy *)
  lemmy : option Lemmy;
  (* Search: the input and the three selects *)
  query_value : string;
  searchtype_value : SearchType;
  sorttype_value : SortType;
  listingtype_value : ListingType;
  search_classes : list string;
  (* PostView: its children *)
  posts : list Post;
  (* identity of the next object, and what happened so far *)
  next_ident : nat;
  trace : list event
}.

Definition with_label (v : string) (s : state) : state :=
  {| inst_value := inst_value s; user_value := user_value s;
     passwd_value := passwd_value s; label := v;
     app_classes := app_classes s; lemmy := lemmy s;
     query_value := query_value s; searchtype_value := searchtype_value s;
     sorttype_value := sorttype_value s;
     listingtype_value := listingtype_value s;
     search_classes := search_classes s; posts := posts s;
     next_ident := next_ident s; trace := trace s |}.

Definition with_app_classes (v : list string) (s : state) : state :=
  {| inst_value := inst_value s; user_value := user_value s;
     passwd_value := passwd_value s; label := label s;
     app_classes := v; lemmy := lemmy s;
     query_value := query_value s; searchtype_value := searchtype_value s;
     sorttype_value := sorttype_value s;
     listingtype_value := listingtype_value s;
     search_classes := search_classes s; posts := posts s;
     next_ident := next_ident s; trace := trace s |}.

Definition with_lemmy (v : option Lemmy) (s : state) : state :=
  {| inst_value := inst_value s; user_value := user_value s;
     passwd_value := passwd_value s; label := label s;
     app_classes := app_classes s; lemmy := v;
     query_value := query_value s; searchtype_value := searchtype_value s;
     sorttype_value := sorttype_value s;
     listingtype_value := listingtype_value s;
     search_classes := search_classes s; posts := posts s;
     next_ident := next_ident s; trace := trace s |}.

Definition with_search_classes (v : list string) (s : state) : state :=
  {| inst_value := inst_value s; user_value := user_value s;
     passwd_value := passwd_value s; label := label s;
     app_classes := app_classes s; lemmy := lemmy s;
     query_value := query_value s; searchtype_value := searchtype_value s;
     sorttype_value := sorttype_value s;
     listingtype_value := listingtype_value s;
     search_classes := v; posts := posts s;
     next_ident := next_ident s; trace := trace s |}.

Definition with_posts (v : list Post) (s : state) : state :=
  {| inst_value := inst_value s; user_value := user_value s;
     passwd_value := passwd_value s; label := label s;
     app_classes := app_classes s; lemmy := lemmy s;
     query_value := query_value s; searchtype_value := searchtype_value s;
     sorttype_value := sorttype_value s;
     listingtype_value := listingtype_value s;
     search_classes := search_classes s; posts := v;
     next_ident := next_ident s; trace := trace s |}.

Definition with_next_ident (v : nat) (s : state) : state :=
  {| inst_value := inst_value s; user_value := user_value s;
     passwd_value := passwd_value s; label := label s;
     app_classes := app_classes s; lemmy := lemmy s;
     query_value := query_value s; searchtype_value := searchtype_value s;
     sorttype_value := sorttype_value s;
     listingtype_value := listingtype_value s;
     search_classes := search_classes s; posts := posts s;
     next_ident := v; trace := trace s |}.

Definition with_trace (v : list event) (s : state) : state :=
  {| inst_value := inst_value s; user_value := user_value s;
     passwd_value := passwd_value s; label := label s;
     app_classes := app_classes s; lemmy := lemmy s;
     query_value := query_value s; searchtype_value := searchtype_value s;
     sorttype_value := sorttype_value s;
     listingtype_value := listingtype_value s;
     search_classes := search_classes s; posts := posts s;
     next_ident := next_ident s; trace := v |}.

Abbreviation act := (M state).

Definition emit (e : event) : act unit :=
  modify (fun s => with_trace (trace s ++ [e]) s).

(** *** Widget calls *)

(** [add_class] and [remove_class] on a set of class names. *)
Definition add (cls : string) (l : list string) : list string :=
  if existsb (String.eqb cls) l then l else l ++ [cls].

Definition remove (cls : string) (l : list string) : list string :=
  filter (fun c => negb (String.eqb cls c)) l.

Definition label_update (text : string) : act unit :=
  modify (with_label text) ;; emit (LabelUpdate text).

Definition app_add_class (cls : string) : act unit :=
  modify (fun s => with_app_classes (add cls (app_classes s)) s) ;;
  emit (AddClass TheApp cls).

Definition search_remove_class (cls : string) : act unit :=
  modify (fun s => with_search_classes (remove cls (search_classes s)) s) ;;
  emit (RemoveClass TheSearch cls).

(** [postview.remove_children()], as a statement of its own: the
    awaitable is dropped, so the caller goes on with the tree as the
    call leaves it. *)
Definition remove_children : act unit :=
  match textual with
  | Immediate => modify (with_posts [])
  | Deferred => ret tt
  end ;;
  emit RemoveChildren.

(** [self.mount(post)]: the new child comes last. *)
Definition mount (p : Post) : act unit :=
  modify (fun s => with_posts (posts s ++ [p]) s) ;; emit (Mount p).

(** [postview.query(Post)[i]]. *)
Definition query_post (i : nat) : act Post :=
  s <- get ;;
  match nth_error (posts s) i with
  | Some p => ret p
  | None => raise IndexError
  end.

Definition focus (p : Post) : act unit := emit (Focus p).

(** *** Client calls *)

(** [Lemmy(inst)]: a new object, which has asked the instance for
    its node information. *)
Definition new_Lemmy (inst : string) : act Lemmy :=
  s <- get ;;
  emit (ApiLemmy inst) ;;
  modify (with_next_ident (S (next_ident s))) ;;
  ret {| ident := next_ident s; instance := inst;
         nodeinfo := discover remote inst; logged_in := false |}.

(** [lemmy.log_in(user, passwd)]: the answer, and the object as
    the call leaves it. *)
Definition Lemmy_log_in (l : Lemmy) (user passwd : string)
  : act (bool * Lemmy) :=
  emit (ApiLogIn (instance l) user passwd) ;;
  if authenticate remote (instance l) user passwd then
    ret (true, {| ident := ident l; instance := instance l;
                  nodeinfo := nodeinfo l; logged_in := true |})
  else ret (false, l).

(** [lemmy.search(q=..., ...)["posts"]], for a request that gets
    through. *)
Definition Lemmy_search (l : Lemmy) (qr : query) : act (list post_record) :=
  emit (ApiSearch (instance l) qr) ;;
  ret (search remote (instance l) (logged_in l) qr).

(** *** [class Post] *)

(** [post.thumbnail = url] on the child mounted last, with
    [watch_thumbnail]: the reactive attribute starts as [None], so
    an assignment of [None] changes nothing and calls no watcher. *)
Definition set_thumbnail (url : option string) : act unit :=
  match url with
  | None => ret tt
  | Some u =>
      modify (fun s =>
        match rev (posts s) with
        | [] => s
        | p :: before =>
            with_posts (rev before ++
              [{| title := title p; body := body p; thumbnail := Some u |}]) s
        end) ;;
      emit (CreateTask u)
  end.

(** *** [class PostView] *)

Definition get_default (o : option string) (d : string) : string :=
  match o with Some v => v | None => d end.

(** [add_post(self, post_contents)]. *)
Definition add_post (post_contents : post_record) : act unit :=
  let post :=
    {| title := get_default (name post_contents) "";
       body := get_default (Lemmy.body post_contents) "";
       thumbnail := None |} in
  mount post ;;
  set_thumbnail (thumbnail_url post_contents).

(** *** [class LemmyView] *)

(** [action_search(self)]. *)
Definition action_search : act unit :=
  s <- get ;;
  match lemmy s with
  | None => ret tt
  | Some l =>
      result <- Lemmy_search l
        {| q := query_value s;
           type_ := searchtype_value s;
           sort := sorttype_value s;
           listing_type := listingtype_value s;
           limit := 20 |} ;;
      remove_children ;;
      search_remove_class "searching" ;;
      for_each result add_post ;;
      if truthy result then
        first <- query_post 0 ;;
        focus first
      else ret tt
  end.

(** [a == b] on two optional node information documents. *)
Definition nodeinfo_eq (a b : option NodeInfo) : bool :=
  match a, b with
  | None, None => true
  | Some x, Some y => nodeinfo_eqb x y
  | _, _ => false
  end.

(** [watch_lemmy(self, old, lemmy)]. *)
Definition watch_lemmy (old new : option Lemmy) : act unit :=
  match new with
  | None => ret tt
  | Some l =>
      match old with
      | Some o =>
          if nodeinfo_eq (nodeinfo l) (nodeinfo o) then ret tt
          else action_search
      | None => action_search
      end
  end.

(** [a != b] on two optional [Lemmy] objects: the class defines no
    equality, so two objects are equal when they are the same. *)
Definition differ (a b : option Lemmy) : bool :=
  match a, b with
  | None, None => false
  | Some x, Some y => negb (Nat.eqb (ident x) (ident y))
  | _, _ => true
  end.

(** Assignment to the reactive attribute [LemmyView.lemmy]: a value
    that differs from the current one is stored, then the watcher
    runs with the old and the new value. *)
Definition set_lemmy (new : option Lemmy) : act unit :=
  s <- get ;;
  let old := lemmy s in
  if differ old new then
    modify (with_lemmy new) ;;
    watch_lemmy old new
  else ret tt.

(** *** [class LemmyUIApp] *)

(** [connect_lemmy_view(self, lemmy)]. *)
Definition connect_lemmy_view (l : Lemmy) : act unit :=
  set_lemmy (Some l).

(** *** [class LoginForm] *)

(** Truth value of [lemmy.nodeinfo]. *)
Definition nodeinfo_truth (l : Lemmy) : bool :=
  match nodeinfo l with
  | Some n => nodeinfo_bool n
  | None => false
  end.

(** The lines of [log_in] after the two early returns. *)
Definition log_in_success (l : Lemmy) : act unit :=
  label_update "Success!" ;;
  app_add_class "logged" ;;
  connect_lemmy_view l.

(** [log_in(self)]. *)
Definition log_in : act unit :=
  s <- get ;;
  let inst := inst_value s in
  let inst :=
    if negb (startswith inst "http") then ("https://" ++ inst)%string
    else inst in
  let _ := strip inst "/" in
  let user := user_value s in
  let passwd := passwd_value s in
  l <- new_Lemmy inst ;;
  if negb (nodeinfo_truth l) then
    label_update ("Failed connection to " ++ inst)%string
  else if nonempty user && nonempty passwd then
    r <- Lemmy_log_in l user passwd ;;
    if negb (fst r) then
      label_update ("Failed login for " ++ user)%string
    else log_in_success (snd r)
  else log_in_success l.

(** [action_log_in(self)]. *)
Definition action_log_in : act unit :=
  modify (fun s => with_app_classes (remove "logged" (app_classes s)) s) ;;
  emit (RemoveClass TheApp "logged").

(** [action_refresh(self)]: the view is always there, so nothing is
    suppressed. *)
Definition action_refresh : act unit := action_search.

(** *** Notions for the statements *)

(** The endpoint that [log_in] hands to [Lemmy]. *)
Definition endpoint_of (inst : string) : string :=
  if negb (startswith inst "http") then ("https://" ++ inst)%string else inst.

(** The [Lemmy] object that [log_in] has made when it reaches the
    line [label.update("Success!")]. *)
Definition session_of (s : state) : Lemmy :=
  let inst := endpoint_of (inst_value s) in
  {| ident := next_ident s;
     instance := inst;
     nodeinfo := discover remote inst;
     logged_in := nonempty (user_value s) && nonempty (passwd_value s) |}.

(** Discovery succeeds: the instance gives node information. *)
Definition discovered (s : state) : bool :=
  match discover remote (endpoint_of (inst_value s)) with
  | Some n => nodeinfo_bool n
  | None => false
  end.

(** [log_in] reaches that line: discovery succeeds and, when user and
    password are both there, the instance takes them. *)
Definition accepted (s : state) : bool :=
  let inst := endpoint_of (inst_value s) in
  discovered s
  && (if nonempty (user_value s) && nonempty (passwd_value s)
      then authenticate remote inst (user_value s) (passwd_value s)
      else true).

(** The object in [LemmyView.lemmy] is older than every object still
    to be made. *)
Definition fresh (s : state) : Prop :=
  match lemmy s with
  | Some o => ident o < next_ident s
  | None => True
  end.

(** The guard of [watch_lemmy] at a login: the search runs again
    unless the view holds an object with the same node information as
    the new one. *)
Definition reruns (s : state) : bool :=
  match lemmy s with
  | None => true
  | Some o =>
      negb (nodeinfo_eq (discover remote (endpoint_of (inst_value s))) (nodeinfo o))
  end.

(** The keywords of the call of [search] in [action_search]. *)
Definition search_query (s : state) : query :=
  {| q := query_value s;
     type_ := searchtype_value s;
     sort := sorttype_value s;
     listing_type := listingtype_value s;
     limit := 20 |}.

(** The children that the view still has when [remove_children] has
    returned. *)
Definition kept (s : state) : list Post :=
  match textual with
  | Immediate => []
  | Deferred => posts s
  end.

(** The [Post] that [add_post] leaves in the view for a record. *)
Definition post_of (r : post_record) : Post :=
  {| title := get_default (name r) "";
     body := get_default (Lemmy.body r) "";
     thumbnail := thumbnail_url r |}.

(** What [add_post] does to the outside for a record. *)
Definition post_events (r : post_record) : list event :=
  Mount {| title := get_default (name r) "";
           body := get_default (Lemmy.body r) "";
           thumbnail := None |}
  :: match thumbnail_url r with
     | Some u => [CreateTask u]
     | None => []
     end.

(** The posts and the trace after a run that changes nothing else but
    the classes of the search widget. *)
Definition after (s : state) (classes : list string) (ps : list Post)
    (evs : list event) : state :=
  with_trace (trace s ++ evs) (with_posts ps (with_search_classes classes s)).

(** What [log_in] does to the outside before it hands the session to
    the view. *)
Definition login_events (s : state) : list event :=
  let inst := endpoint_of (inst_value s) in
  ApiLemmy inst
  :: (if nonempty (user_value s) && nonempty (passwd_value s)
      then [ApiLogIn inst (user_value s) (passwd_value s)]
      else [])
  ++ [LabelUpdate "Success!"; AddClass TheApp "logged"].

(** The state in which the watcher of [LemmyView.lemmy] starts. *)
Definition signed_in (s : state) : state :=
  with_lemmy (Some (session_of s))
    (with_app_classes (add "logged" (app_classes s))
       (with_label "Success!"
          (with_next_ident (S (next_ident s))
             (with_trace (trace s ++ login_events s) s)))).

(** The remote side keeps to the limit of a search. *)
Definition honours_limit : Prop :=
  forall inst auth qr,
    (0 <= limit qr)%Z ->
    (Z.of_nat (List.length (search remote inst auth qr)) <= limit qr)%Z.

Definition is_create_task (e : event) : bool :=
  match e with CreateTask _ => true | _ => false end.

(** The tasks that [watch_thumbnail] starts for the posts of an
    answer. *)
Definition thumbnail_tasks (answer : list post_record) : list event :=
  flat_map (fun r => match thumbnail_url r with
                     | Some u => [CreateTask u]
                     | None => []
                     end) answer.

Definition is_search (e : event) : bool :=
  match e with ApiSearch _ _ => true | _ => false end.

Definition is_log_in (e : event) : bool :=
  match e with ApiLogIn _ _ _ => true | _ => false end.

Definition is_focus (e : event) : bool :=
  match e with Focus _ => true | _ => false end.

Definition is_remove_children (e : event) : bool :=
  match e with RemoveChildren => true | _ => false end.

Definition is_mount (e : event) : bool :=
  match e with Mount _ => true | _ => false end.

End WithServer.

End App.

(* ================================================================= *)
(** ** The login of the specification *)

(** The first step of the specification's login, in its words: prefix
    a default scheme if none is present, strip trailing separators.
    This is what the endpoint of [log_in] is compared with. *)
Module SpecLogin.

(** A scheme is present when the text holds [://]. *)
Definition has_scheme (endpoint : string) : bool :=
  match String.index 0 "://" endpoint with
  | Some _ => true
  | None => false
  end.

Definition normalize (endpoint : string) : string :=
  rstrip (if has_scheme endpoint then endpoint
          else ("https://" ++ endpoint)%string) "/".

End SpecLogin.

(* ================================================================= *)
(** ** The prototype, [main.py] *)

Module Prototype.

(** A [Post] widget: its class names. *)
Definition Post := list string.

(** [class PostView]: [idx] and the [Post] widgets that
    [self.query('Post')] finds, in order. *)
Record PostView : Type := {
  idx : Z;
  posts : list Post
}.

Definition len {A} (l : list A) : Z := Z.of_nat (List.length l).

(** The position that the index [i] of [l[i]] stands for: negative
    indices count from the end, and an index outside the list has no
    position. *)
Definition position {A} (l : list A) (i : Z) : option nat :=
  if ((0 <=? i) && (i <? len l))%Z then Some (Z.to_nat i)
  else if ((- len l <=? i) && (i <? 0))%Z then Some (Z.to_nat (len l + i))
  else None.

(** Replace the element at a position. *)
Fixpoint update {A} (l : list A) (n : nat) (f : A -> A) : list A :=
  match l, n with
  | [], _ => []
  | x :: l', O => f x :: l'
  | x :: l', S n' => x :: update l' n' f
  end.

Definition add_class (cls : string) (p : Post) : Post :=
  if existsb (String.eqb cls) p then p else p ++ [cls].

Definition remove_class (cls : string) (p : Post) : Post :=
  filter (fun c => negb (String.eqb cls c)) p.

(** [posts[i].method()] for a method that changes the widget. *)
Definition on_post (i : Z) (f : Post -> Post) : M PostView unit :=
  s <- get ;;
  match position (posts s) i with
  | Some n => modify (fun s => {| idx := idx s; posts := update (posts s) n f |})
  | None => raise IndexError
  end.

(** [_move_selection(self, direction)]. *)
Definition _move_selection (direction : Z) : M PostView unit :=
  s <- get ;;
  if negb (truthy (posts s)) then ret tt
  else
    on_post (idx s) (remove_class "selected") ;;
    modify (fun s =>
      {| idx := (idx s + direction) mod len (posts s); posts := posts s |}) ;;
    s <- get ;;
    on_post (idx s) (add_class "selected").

Definition action_go_up : M PostView unit := _move_selection (-1).

Definition action_go_down : M PostView unit := _move_selection 1.

(** A view whose index points at one of its posts. *)
Definition valid (v : PostView) : Prop :=
  (0 <= idx v < len (posts v))%Z.

(** [on_mount(self)]. *)
Definition on_mount : M PostView unit := _move_selection 0.

(** A view whose index the indexing [posts[self.idx]] takes: it may
    count from the end. *)
Definition indexable (v : PostView) : Prop :=
  (- len (posts v) <= idx v < len (posts v))%Z.

(** A post that carries the class [selected]. *)
Definition selected (p : Post) : bool := existsb (String.eqb "selected") p.

End Prototype.

(* ================================================================= *)
(** ** Inputs of the examples *)

Module Sample.
Import Lemmy Textual App.

(** An image of 10000 zero bytes. *)
Definition blank : bytes := repeat x00 10000.

(** Collaborators for a run of [KittyImage.__init__]: the download
    gives the bytes of the text [oops], and [Image.open] takes only
    what starts like a PNG file. *)
Definition get_oops (url : string) : result bytes :=
  Ok (encode_ascii "oops").

Definition open_png (content : bytes) : result bytes :=
  match content with
  | x89 :: _ => Ok content
  | _ => Raise UnidentifiedImageError
  end.

(** An instance: it answers at one address, takes one password,
    and knows two posts about cats. *)
Definition cats : list post_record :=
  [ {| name := Some "a cat"; Lemmy.body := Some "purr";
       thumbnail_url := Some "https://example.org/cat.png" |};
    {| name := Some "another cat"; Lemmy.body := None;
       thumbnail_url := None |} ].

Definition example_org : server string :=
  {| discover := fun inst =>
       if String.eqb inst "https://example.org" then Some "lemmy" else None;
     authenticate := fun inst user passwd => String.eqb passwd "secret";
     search := fun inst auth qr => firstn (Z.to_nat (limit qr)) cats |}.

(** The same instance with nothing to find. *)
Definition quiet_org : server string :=
  {| discover := discover example_org;
     authenticate := authenticate example_org;
     search := fun inst auth qr => [] |}.

(** The application before the first login, with an address typed
    in. *)
Definition start (inst : string) : state string :=
  {| inst_value := inst; user_value := ""; passwd_value := "";
     label := ""; app_classes := []; lemmy := None;
     query_value := "cats"; searchtype_value := Posts;
     sorttype_value := Active; listingtype_value := All;
     search_classes := ["searching"]; posts := [];
     next_ident := 0; trace := [] |}.

(** [log_in] against the instance, with a widget library that
    leaves the removal to the message loop; node information is a
    text. *)
Definition log_in_at (remote : server string) : M (state string) unit :=
  log_in String.eqb nonempty remote Deferred.

(** The application after one login at [example.org]. *)
Definition once : state string :=
  snd (log_in_at example_org (start "example.org")).

(** The session that this login has left in the view. *)
Definition first_session : Lemmy.t string :=
  {| ident := 0; instance := "https://example.org";
     nodeinfo := Some "lemmy"; logged_in := false |}.

(** A view of the prototype with three posts, the second selected. *)
Definition three_posts : Prototype.PostView :=
  {| Prototype.idx := 1; Prototype.posts := [[]; ["selected"]; []] |}.

(** The same form with a user and a wrong password. *)
Definition intruder : state string :=
  {| inst_value := "example.org"; user_value := "eve"; passwd_value := "guess";
     label := ""; app_classes := []; lemmy := None;
     query_value := "cats"; searchtype_value := Posts;
     sorttype_value := Active; listingtype_value := All;
     search_classes := ["searching"]; posts := [];
     next_ident := 0; trace := [] |}.

(** The same form with a user and the right password. *)
Definition member : state string :=
  {| inst_value := "example.org"; user_value := "bob"; passwd_value := "secret";
     label := ""; app_classes := []; lemmy := None;
     query_value := "cats"; searchtype_value := Posts;
     sorttype_value := Active; listingtype_value := All;
     search_classes := ["searching"]; posts := [];
     next_ident := 0; trace := [] |}.

(** The same view after the posts were replaced by a shorter list,
    with the index left where it was. *)
Definition stale : Prototype.PostView :=
  {| Prototype.idx := 5; Prototype.posts := [[]; []] |}.

(** A view whose index counts from the end. *)
Definition from_end : Prototype.PostView :=
  {| Prototype.idx := -1; Prototype.posts := [[]; []; ["selected"]] |}.

(** An instance that finds posts about dogs when asked for them, and
    the posts about cats otherwise. *)
Definition dogs : list post_record :=
  [ {| name := Some "a dog"; Lemmy.body := Some "woof";
       thumbnail_url := None |} ].

Definition pets_org : server string :=
  {| discover := discover example_org;
     authenticate := authenticate example_org;
     search := fun inst auth qr =>
       if String.eqb (q qr) "dogs" then dogs else cats |}.

(** The user types a text into the search input. *)
Definition type_query (text : string) (s : state string) : state string :=
  {| inst_value := inst_value s; user_value := user_value s;
     passwd_value := passwd_value s; label := label s;
     app_classes := app_classes s; lemmy := lemmy s;
     query_value := text; searchtype_value := searchtype_value s;
     sorttype_value := sorttype_value s;
     listingtype_value := listingtype_value s;
     search_classes := search_classes s; posts := posts s;
     next_ident := next_ident s; trace := trace s |}.

(** The application after a login at that instance, which has shown
    the posts about cats, and with [dogs] typed in for the next
    search. *)
Definition asking_for_dogs : state string :=
  type_query "dogs" (snd (log_in_at pets_org (start "example.org"))).

(** An instance that takes no notice of the limit of a search: it
    answers with 25 posts. *)
Definition crowded_org : server string :=
  {| discover := discover example_org;
     authenticate := authenticate example_org;
     search := fun inst auth qr =>
       repeat {| name := Some "a cat"; Lemmy.body := None;
                 thumbnail_url := None |} 25 |}.

(** The application with a session at that instance and an empty
    view. *)
Definition at_crowded_org : state string :=
  with_lemmy (Some first_session) (start "example.org").

End Sample.

(* ################################################################# *)
(** * Part II: properties *)

(** ** Base64 *)

Module Base64Facts.
Import Base64.

(** Every six-bit value is the position of its own character. *)
Lemma value_of_char_of (s : N) : (s < 64)%N -> value_of (char_of s) = Some s.
Proof.
  intros Hs.
  assert (All : forallb (fun n => match value_of (char_of (N.of_nat n)) with
                                  | Some v => N.eqb v (N.of_nat n)
                                  | None => false
                                  end) (seq 0 64) = true) by (vm_compute; reflexivity).
  rewrite forallb_forall in All.
  specialize (All (N.to_nat s)).
  rewrite N2Nat.id in All.
  destruct (value_of (char_of s)) as [v|].
  - f_equal. apply N.eqb_eq, All, in_seq. lia.
  - discriminate All. apply in_seq. lia.
Qed.

(** No character of the alphabet is the pad. *)
Lemma char_of_not_pad (s : N) : (s < 64)%N -> Byte.eqb (char_of s) pad = false.
Proof.
  intros Hs.
  assert (All : forallb (fun n => negb (Byte.eqb (char_of (N.of_nat n)) pad))
                        (seq 0 64) = true) by (vm_compute; reflexivity).
  rewrite forallb_forall in All.
  specialize (All (N.to_nat s)).
  rewrite N2Nat.id in All.
  apply negb_true_iff, All, in_seq. lia.
Qed.

Lemma byte_of_to_N (b : byte) : byte_of (Byte.to_N b) = b.
Proof. unfold byte_of. rewrite Byte.of_to_N. reflexivity. Qed.

Lemma to_N_lt (b : byte) : (Byte.to_N b < 256)%N.
Proof. pose proof (Byte.to_N_bounded b). lia. Qed.

Ltac euclid := zify; Z.to_euclidean_division_equations; lia.

Section Arithmetic.
Local Open Scope N_scope.

Lemma sextet0 x : x < 256 -> x / 4 < 64.
Proof. intros; euclid. Qed.
Lemma sextet1 x y : x < 256 -> y < 256 -> (x mod 4) * 16 + y / 16 < 64.
Proof. intros; euclid. Qed.
Lemma sextet2 y z : y < 256 -> z < 256 -> (y mod 16) * 4 + z / 64 < 64.
Proof. intros; euclid. Qed.
Lemma sextet3 z : z < 256 -> z mod 64 < 64.
Proof. intros; euclid. Qed.
Lemma sextet1_last x : x < 256 -> (x mod 4) * 16 < 64.
Proof. intros; euclid. Qed.
Lemma sextet2_last y : y < 256 -> (y mod 16) * 4 < 64.
Proof. intros; euclid. Qed.
Lemma octet0 x y :
  x < 256 -> y < 256 -> x / 4 * 4 + ((x mod 4) * 16 + y / 16) / 16 = x.
Proof. intros; euclid. Qed.
Lemma octet1 x y z :
  x < 256 -> y < 256 -> z < 256 ->
  (((x mod 4) * 16 + y / 16) mod 16) * 16 + ((y mod 16) * 4 + z / 64) / 4 = y.
Proof. intros; euclid. Qed.
Lemma octet2 y z :
  y < 256 -> z < 256 -> (((y mod 16) * 4 + z / 64) mod 4) * 64 + z mod 64 = z.
Proof. intros; euclid. Qed.
Lemma octet0_last x : x < 256 -> x / 4 * 4 + ((x mod 4) * 16) / 16 = x.
Proof. intros; euclid. Qed.
Lemma octet1_last x y :
  x < 256 -> y < 256 ->
  (((x mod 4) * 16 + y / 16) mod 16) * 16 + ((y mod 16) * 4) / 4 = y.
Proof. intros; euclid. Qed.
End Arithmetic.

(** Induction over a byte string three bytes at a time. *)
Lemma bytes_ind3 (P : bytes -> Prop) :
  P [] -> (forall a, P [a]) -> (forall a b, P [a; b]) ->
  (forall a b c rest, P rest -> P (a :: b :: c :: rest)) ->
  forall data, P data.
Proof.
  intros H0 H1 H2 H3.
  fix IH 1.
  intros [|a [|b [|c rest]]];
    [ apply H0 | apply H1 | apply H2 | apply H3; apply IH ].
Qed.

Lemma decode_group (c0 c1 c2 c3 : byte) (rest : bytes) :
  decode (c0 :: c1 :: c2 :: c3 :: rest) =
  match value_of c0, value_of c1 with
  | Some s0, Some s1 =>
      if Byte.eqb c3 pad then
        match rest with
        | [] =>
            if Byte.eqb c2 pad then Some (dec1 s0 s1)
            else option_map (dec2 s0 s1) (value_of c2)
        | _ :: _ => None
        end
      else
        match value_of c2, value_of c3, decode rest with
        | Some s2, Some s3, Some out => Some (dec3 s0 s1 s2 s3 ++ out)
        | _, _, _ => None
        end
  | _, _ => None
  end.
Proof. reflexivity. Qed.

Lemma pad_is_pad : Byte.eqb pad pad = true.
Proof. reflexivity. Qed.

(** Decoding undoes encoding. *)
Lemma decode_encode (data : bytes) : decode (encode data) = Some data.
Proof.
  induction data as [|a|a b|a b c rest IH] using bytes_ind3.
  - reflexivity.
  - pose proof (to_N_lt a) as Ha.
    change (encode [a]) with (enc1 a). unfold enc1.
    rewrite decode_group.
    rewrite (value_of_char_of (sextet0 Ha)), (value_of_char_of (sextet1_last Ha)).
    rewrite !pad_is_pad. unfold dec1.
    rewrite (octet0_last Ha), byte_of_to_N. reflexivity.
  - pose proof (to_N_lt a) as Ha. pose proof (to_N_lt b) as Hb.
    change (encode [a; b]) with (enc2 a b). unfold enc2.
    rewrite decode_group.
    rewrite (value_of_char_of (sextet0 Ha)), (value_of_char_of (sextet1 Ha Hb)).
    rewrite pad_is_pad, (char_of_not_pad (sextet2_last Hb)).
    rewrite (value_of_char_of (sextet2_last Hb)).
    unfold option_map, dec2.
    rewrite (octet0 Ha Hb), (octet1_last Ha Hb), !byte_of_to_N. reflexivity.
  - pose proof (to_N_lt a) as Ha. pose proof (to_N_lt b) as Hb.
    pose proof (to_N_lt c) as Hc.
    change (encode (a :: b :: c :: rest)) with (enc3 a b c ++ encode rest).
    unfold enc3. cbn [app].
    rewrite decode_group.
    rewrite (value_of_char_of (sextet0 Ha)), (value_of_char_of (sextet1 Ha Hb)).
    rewrite (char_of_not_pad (sextet3 Hc)).
    rewrite (value_of_char_of (sextet2 Hb Hc)), (value_of_char_of (sextet3 Hc)).
    rewrite IH. unfold dec3. cbn [app].
    rewrite (octet0 Ha Hb), (octet1 Ha Hb Hc), (octet2 Hb Hc), !byte_of_to_N.
    reflexivity.
Qed.

(** Four characters for every three bytes or part of three. *)
Lemma length_encode (data : bytes) :
  List.length (encode data) = 4 * ((List.length data + 2) / 3).
Proof.
  induction data as [|a|a b|a b c rest IH] using bytes_ind3;
    try reflexivity.
  change (encode (a :: b :: c :: rest)) with (enc3 a b c ++ encode rest).
  unfold enc3. cbn [app List.length]. rewrite IH.
  replace (S (S (S (List.length rest))) + 2) with ((List.length rest + 2) + 1 * 3) by lia.
  rewrite Nat.div_add by lia. lia.
Qed.

(** The encoder writes only characters of the alphabet and pads. *)
Lemma printable_char_of (s : N) : printable (char_of s) = true.
Proof.
  unfold char_of, printable.
  apply existsb_exists. exists (nth (N.to_nat s) alphabet pad).
  split; [| apply Byte.byte_dec_lb; reflexivity ].
  destruct (nth_in_or_default (N.to_nat s) alphabet pad) as [Hin|Hd].
  - right. exact Hin.
  - left. symmetry. exact Hd.
Qed.

Lemma printable_encode (data : bytes) :
  forallb printable (encode data) = true.
Proof.
  induction data as [|a|a b|a b c rest IH] using bytes_ind3.
  - reflexivity.
  - change (encode [a]) with (enc1 a). unfold enc1. cbn [forallb].
    rewrite !printable_char_of. reflexivity.
  - change (encode [a; b]) with (enc2 a b). unfold enc2. cbn [forallb].
    rewrite !printable_char_of. reflexivity.
  - change (encode (a :: b :: c :: rest)) with (enc3 a b c ++ encode rest).
    unfold enc3. cbn [app forallb].
    rewrite !printable_char_of, IH. reflexivity.
Qed.

End Base64Facts.

(** ** The chunked writer *)

Module KittyFacts.
Import Kitty.

Lemma slice_to_from {A} (l : list A) :
  forall n, slice_to n l ++ slice_from n l = l.
Proof.
  induction l as [|x l IH]; intros n; cbn [slice_to slice_from].
  - reflexivity.
  - destruct (N.eqb n 0).
    + reflexivity.
    + cbn [app]. rewrite IH. reflexivity.
Qed.

Lemma slice_from_shorter {A} (n : N) (l : list A) :
  (0 < n)%N -> l <> [] -> List.length (slice_from n l) < List.length l.
Proof.
  intros Hn Hl. rewrite slice_from_length.
  destruct l as [|x l]; [congruence|]. cbn [List.length]. lia.
Qed.

Lemma slice_to_truthy {A} (n : N) (l : list A) :
  (0 < n)%N -> l <> [] -> truthy (slice_to n l) = true.
Proof.
  intros Hn Hl. destruct l as [|x l]; [congruence|].
  cbn [slice_to]. destruct (N.eqb_spec n 0); [lia | reflexivity].
Qed.

(** Induction along the rounds of the loop. *)
Lemma chunk_ind (P : bytes -> Prop) :
  P [] ->
  (forall data, data <> [] -> P (slice_from 4096 data) -> P data) ->
  forall data, P data.
Proof.
  intros Hnil Hstep data.
  remember (List.length data) as n eqn:Hn.
  revert data Hn.
  induction n as [n IH] using lt_wf_ind.
  intros [|b rest] Hn; [exact Hnil|].
  apply Hstep; [discriminate|].
  apply (IH (List.length (slice_from 4096 (b :: rest)))); [|reflexivity].
  subst n. apply slice_from_shorter; [lia | discriminate].
Qed.

(** One round of the loop. *)
Lemma write_loop_step (data : bytes) (cmd : kwargs) (buf : bytes) :
  data <> [] ->
  write_loop data cmd buf =
  write_loop (slice_from 4096 data) []
    (buf ++ serialize_gr_command (Some (slice_to 4096 data))
              (("m", VInt (if truthy (slice_from 4096 data) then 1 else 0)) :: cmd)).
Proof.
  destruct data as [|b rest]; [congruence|].
  intros _. rewrite write_loop_equation_2. reflexivity.
Qed.

Lemma sent_step (data : bytes) (cmd : kwargs) :
  data <> [] ->
  sent data cmd =
  (slice_to 4096 data,
   ("m", VInt (if truthy (slice_from 4096 data) then 1 else 0)) :: cmd)
    :: sent (slice_from 4096 data) [].
Proof.
  destruct data as [|b rest]; [congruence|].
  intros _. rewrite sent_equation_2. reflexivity.
Qed.

(** The buffer grows by the frames of the calls, in order. *)
Lemma write_loop_sent (data : bytes) :
  forall cmd buf,
    write_loop data cmd buf = buf ++ List.concat (map frame_bytes (sent data cmd)).
Proof.
  induction data as [|data Hne IH] using chunk_ind; intros cmd buf.
  - rewrite write_loop_equation_1, sent_equation_1. cbn [map List.concat].
    rewrite app_nil_r. reflexivity.
  - rewrite (write_loop_step cmd buf Hne), (sent_step cmd Hne), IH.
    cbn [map List.concat]. rewrite <- app_assoc. reflexivity.
Qed.

(** The payloads of the calls are the text, cut in pieces. *)
Lemma sent_payloads (data : bytes) :
  forall cmd, List.concat (map fst (sent data cmd)) = data.
Proof.
  induction data as [|data Hne IH] using chunk_ind; intros cmd.
  - rewrite sent_equation_1. reflexivity.
  - rewrite (sent_step cmd Hne). cbn [map List.concat fst].
    rewrite IH. apply slice_to_from.
Qed.

(** The number of calls is the length of the text over the chunk
    length, rounded up. *)
Lemma sent_count (data : bytes) :
  forall cmd,
    List.length data <= 4096 * List.length (sent data cmd) /\
    4096 * List.length (sent data cmd) < List.length data + 4096.
Proof.
  induction data as [|data Hne IH] using chunk_ind; intros cmd.
  - rewrite sent_equation_1. cbn [List.length]. lia.
  - rewrite (sent_step cmd Hne). cbn [List.length].
    specialize (IH []). rewrite slice_from_length in IH.
    assert (0 < List.length data) by (destruct data; [congruence | cbn; lia]).
    lia.
Qed.

(** Every payload is a piece of the text and is not empty. *)
Lemma sent_pieces (ok : byte -> bool) (data : bytes) :
  forall cmd,
    forallb ok data = true ->
    Forall (fun pc => truthy (fst pc) = true /\ forallb ok (fst pc) = true)
           (sent data cmd).
Proof.
  induction data as [|data Hne IH] using chunk_ind; intros cmd Hok.
  - rewrite sent_equation_1. constructor.
  - rewrite (sent_step cmd Hne).
    rewrite <- (slice_to_from data 4096), forallb_app in Hok.
    apply andb_true_iff in Hok as [Hfirst Hrest].
    constructor; [| apply IH; exact Hrest ].
    cbn [fst]. split; [| exact Hfirst ].
    apply slice_to_truthy; [lia | exact Hne].
Qed.

Lemma eqb_1_S (n : nat) : Nat.eqb 1 (S n) = Nat.eqb 0 n.
Proof. reflexivity. Qed.

(** The keywords of the calls: [m] is 1 on every call but the last
    and 0 on the last; the keywords of the caller go with the first
    call only. *)
Lemma sent_keywords (data : bytes) :
  forall cmd i pc,
    nth_error (sent data cmd) i = Some pc ->
    snd pc =
    ("m", VInt (if Nat.eqb (S i) (List.length (sent data cmd)) then 0 else 1))
      :: (if Nat.eqb i 0 then cmd else []).
Proof.
  induction data as [|data Hne IH] using chunk_ind; intros cmd i pc.
  - rewrite sent_equation_1. destruct i; discriminate.
  - rewrite (sent_step cmd Hne). cbn [List.length].
    destruct i as [|j]; cbn [nth_error].
    + intros Heq.
      assert (Hpc : snd pc =
                ("m", VInt (if truthy (slice_from 4096 data) then 1%Z else 0%Z)) :: cmd)
        by (injection Heq as <-; reflexivity).
      rewrite Hpc, eqb_1_S.
      destruct (slice_from 4096 data) as [|b rest] eqn:Hrest.
      * rewrite sent_equation_1. reflexivity.
      * rewrite sent_step by discriminate. reflexivity.
    + intros Hj. rewrite (IH [] j pc Hj).
      change (Nat.eqb (S (S j)) (S ?n)) with (Nat.eqb (S j) n).
      destruct j; reflexivity.
Qed.

End KittyFacts.

(** ** The reader against the writer *)

Module TerminalFacts.
Import Kitty Terminal KittyFacts.

Lemma byte_eqb_refl (b : byte) : Byte.eqb b b = true.
Proof. apply Byte.byte_dec_lb. reflexivity. Qed.

Lemma expect_app (p s : bytes) : expect p (p ++ s) = Some s.
Proof.
  induction p as [|x p IH]; cbn [expect app].
  - reflexivity.
  - rewrite byte_eqb_refl. exact IH.
Qed.

Lemma scan_stop (stop : byte -> bool) (u : bytes) (x : byte) (s : bytes) :
  forallb (fun b => negb (stop b)) u = true ->
  stop x = true ->
  scan stop (u ++ x :: s) = (u, x :: s).
Proof.
  intros Hu Hx. induction u as [|y u IH]; cbn [scan app].
  - rewrite Hx. reflexivity.
  - cbn [forallb] in Hu. apply andb_true_iff in Hu as [Hy Hu].
    apply negb_true_iff in Hy. rewrite Hy, (IH Hu). reflexivity.
Qed.

(** The bytes of a frame with a payload. *)
Lemma frame_bytes_eq (pc : bytes * kwargs) :
  truthy (fst pc) = true ->
  frame_bytes pc =
  [ESC; "_"%byte; "G"%byte]
    ++ control_data (snd pc) ++ ";"%byte :: fst pc ++ trailer.
Proof.
  intros Hp. unfold frame_bytes, serialize_gr_command. rewrite Hp.
  fold (control_data (snd pc)).
  cbn [app List.concat]. reflexivity.
Qed.

Lemma read_frame_written (pc : bytes * kwargs) (rest : bytes) :
  legible pc ->
  read_frame (frame_bytes pc ++ rest) = Some (frame_of pc, rest).
Proof.
  intros (Hp & Hesc & Hctl).
  rewrite (frame_bytes_eq pc Hp).
  unfold read_frame.
  rewrite <- app_assoc, expect_app.
  rewrite <- app_assoc. cbn [app].
  rewrite (scan_stop _ _ _ _ Hctl) by reflexivity.
  change (is_semi ";"%byte) with true. cbn match.
  rewrite <- app_assoc. unfold trailer at 1. cbn [app].
  rewrite (scan_stop _ _ _ _ Hesc) by reflexivity.
  change (ESC :: "\"%byte :: rest) with (trailer ++ rest).
  rewrite expect_app. reflexivity.
Qed.

Lemma frame_bytes_cons (pc : bytes * kwargs) :
  exists tl, frame_bytes pc = ESC :: tl.
Proof.
  unfold frame_bytes, serialize_gr_command.
  destruct (truthy (fst pc)); cbn [app List.concat]; eexists; reflexivity.
Qed.

Lemma read_frames_cons (fuel : nat) (x : byte) (s : bytes) :
  read_frames (S fuel) (x :: s) =
  match read_frame (x :: s) with
  | None => None
  | Some (fr, rest) => option_map (cons fr) (read_frames fuel rest)
  end.
Proof. reflexivity. Qed.

(** The reader finds the frames of the calls, given the fuel. *)
Lemma read_frames_written (l : list (bytes * kwargs)) :
  Forall legible l ->
  forall fuel, List.length l <= fuel ->
    read_frames fuel (List.concat (map frame_bytes l)) = Some (map frame_of l).
Proof.
  induction 1 as [|pc l Hpc Hl IH]; intros fuel Hfuel.
  - destruct fuel; reflexivity.
  - cbn [map List.concat].
    destruct fuel as [|fuel]; [cbn in Hfuel; lia|].
    destruct (frame_bytes_cons pc) as [tl Htl].
    assert (Hcons : exists x s, frame_bytes pc ++ List.concat (map frame_bytes l) = x :: s)
      by (rewrite Htl; eexists; eexists; reflexivity).
    destruct Hcons as (x & s & Hxs).
    rewrite Hxs, read_frames_cons, <- Hxs.
    rewrite (read_frame_written _ Hpc).
    rewrite IH by (cbn in Hfuel; lia). reflexivity.
Qed.

Lemma stream_length (l : list (bytes * kwargs)) :
  List.length l <= List.length (List.concat (map frame_bytes l)).
Proof.
  induction l as [|pc l IH]; cbn [map List.concat List.length].
  - lia.
  - destruct (frame_bytes_cons pc) as [tl ->].
    cbn [app List.length]. rewrite length_app. lia.
Qed.

Lemma frames_written (l : list (bytes * kwargs)) :
  Forall legible l ->
  frames (List.concat (map frame_bytes l)) = Some (map frame_of l).
Proof.
  intros Hl. apply read_frames_written; [exact Hl | apply stream_length].
Qed.

Lemma reassemble_written (l : list (bytes * kwargs)) :
  reassemble (map frame_of l) = List.concat (map fst l).
Proof.
  unfold reassemble. rewrite map_map. reflexivity.
Qed.

(** No character of base64 text is an escape. *)
Lemma printable_not_esc (c : byte) :
  Base64.printable c = true -> negb (is_esc c) = true.
Proof. destruct c; vm_compute; congruence. Qed.

Lemma printable_text (data : bytes) :
  forallb Base64.printable data = true ->
  forallb (fun b => negb (is_esc b)) data = true.
Proof.
  rewrite !forallb_forall. intros H x Hx. apply printable_not_esc, H, Hx.
Qed.

(** What [write_chunked] sends for an image can be read back. *)
Lemma sent_legible (png : bytes) :
  Forall legible (sent (Base64.encode png) init_keywords).
Proof.
  pose proof (@sent_pieces (fun b => negb (is_esc b)) _ init_keywords
                (printable_text _ (Base64Facts.printable_encode png))) as Hp.
  rewrite Forall_forall in *. intros pc Hin.
  destruct (Hp pc Hin) as [Ht Hesc].
  split; [exact Ht | split; [exact Hesc|]].
  destruct (In_nth_error _ _ Hin) as [i Hi].
  rewrite (sent_keywords _ _ _ Hi).
  destruct (Nat.eqb (S i) _), (Nat.eqb i 0); reflexivity.
Qed.

Lemma frames_write_chunked (png : bytes) :
  frames (write_chunked png [] init_keywords) =
  Some (map frame_of (sent (Base64.encode png) init_keywords)).
Proof.
  unfold write_chunked. rewrite write_loop_sent. cbn [app].
  apply frames_written, sent_legible.
Qed.

(** The keys of a frame of [write_chunked]. *)
Lemma key_m (m : Z) (rest : kwargs) (p : bytes) :
  (m = 0 \/ m = 1)%Z -> (rest = init_keywords \/ rest = []) ->
  key "m" (frame_of (p, ("m", VInt m) :: rest)) =
  Some (if Z.eqb m 0 then "0" else "1").
Proof. intros [-> | ->] [-> | ->]; reflexivity. Qed.

End TerminalFacts.

(** ** The image codec: statements *)

Module ImageCodec.
Import Kitty Terminal KittyFacts TerminalFacts Sample.

(** C1.  For every image, the payloads of the frames that
    [write_chunked] emits, put together in the order of emission and
    decoded from base64, are the bytes of the image. *)
Theorem chunked_round_trip (png : bytes) :
  exists frs,
    frames (write_chunked png [] init_keywords) = Some frs /\
    Base64.decode (reassemble frs) = Some png.
Proof.
  exists (map frame_of (sent (Base64.encode png) init_keywords)).
  split.
  - apply frames_write_chunked.
  - rewrite reassemble_written, sent_payloads.
    apply Base64Facts.decode_encode.
Qed.

(** The same for the object that [__init__] builds, whatever the
    collaborators are. *)
Lemma init_round_trip (Image : Type) (requests_get : string -> result bytes)
    (Image_open : bytes -> result Image) (resize_save_png : Image -> bytes)
    (url : string) (k : KittyImage) :
  init requests_get Image_open resize_save_png url = Ok k ->
  exists frs,
    frames (buf k) = Some frs /\
    Base64.decode (reassemble frs) = Some (png k).
Proof.
  unfold init. intros H.
  destruct (requests_get url) as [content|]; [|discriminate].
  destruct (Image_open content) as [img|]; [|discriminate].
  injection H as <-. cbn [buf png]. apply chunked_round_trip.
Qed.

(** C2, as stated, fails: an image of 10000 bytes does not make three
    frames.  Its base64 text has 13336 characters, which is more than
    three chunks of 4096. *)
Lemma ten_thousand_bytes_not_three_frames :
  ~ exists f1 f2 f3,
      frames (write_chunked blank [] init_keywords) = Some [f1; f2; f3].
Proof.
  intros (f1 & f2 & f3 & H).
  apply (f_equal (option_map (@List.length frame))) in H.
  vm_compute in H. discriminate H.
Qed.

Lemma nth_error_frame_of (l : list (bytes * kwargs)) (i : nat) (fr : frame) :
  nth_error (map frame_of l) i = Some fr ->
  exists pc, nth_error l i = Some pc /\ fr = frame_of pc.
Proof.
  rewrite nth_error_map.
  destruct (nth_error l i) as [pc|]; [|discriminate].
  intros [= <-]. exists pc. split; reflexivity.
Qed.

Lemma encoded_length_10000 (png : bytes) :
  List.length png = 10000 ->
  N.of_nat (List.length (Base64.encode png)) = 13336%N.
Proof.
  intros Hlen.
  assert (Hn : N.of_nat (List.length png) = 10000%N)
    by (rewrite Hlen; vm_compute; reflexivity).
  rewrite Base64Facts.length_encode.
  rewrite Nat2N.inj_mul, Nat2N.inj_div, Nat2N.inj_add, Hn. reflexivity.
Qed.

(** C2, amended.  The frames of an image can be read back, and:
    every frame but the last carries [m=1] and the last carries
    [m=0]; the first frame carries [a=T] and [f=100] and no other
    frame carries [a] or [f]; an image of 10000 bytes makes four
    frames, with [m=1] on the first three and [m=0] on the fourth. *)
Theorem frame_flags (png : bytes) :
  exists frs,
    frames (write_chunked png [] init_keywords) = Some frs /\
    (forall i fr,
        nth_error frs i = Some fr ->
        key "m" fr = Some (if Nat.eqb (S i) (List.length frs) then "0" else "1") /\
        (i = 0 -> key "a" fr = Some "T" /\ key "f" fr = Some "100") /\
        (i <> 0 -> key "a" fr = None /\ key "f" fr = None)) /\
    (List.length png = 10000 ->
     map (key "m") frs = [Some "1"; Some "1"; Some "1"; Some "0"]).
Proof.
  set (l := sent (Base64.encode png) init_keywords).
  assert (Hkeys : forall i fr,
    nth_error (map frame_of l) i = Some fr ->
    key "m" fr = Some (if Nat.eqb (S i) (List.length (map frame_of l)) then "0" else "1") /\
    (i = 0 -> key "a" fr = Some "T" /\ key "f" fr = Some "100") /\
    (i <> 0 -> key "a" fr = None /\ key "f" fr = None)).
  { intros i fr Hfr.
    destruct (nth_error_frame_of _ _ Hfr) as ([p c] & Hpc & ->).
    pose proof (sent_keywords _ _ _ Hpc) as Hc. cbn [snd] in Hc. subst c.
    rewrite length_map. fold l.
    destruct (Nat.eqb (S i) (List.length l)); destruct i as [|j];
      cbn [Nat.eqb]; (split; [reflexivity | split; intros Hi]);
      try congruence; split; reflexivity. }
  exists (map frame_of l). split; [apply frames_write_chunked | split; [exact Hkeys|]].
  intros Hlen.
  assert (Hfour : List.length (map frame_of l) = 4).
  { rewrite length_map. unfold l.
    pose proof (sent_count (Base64.encode png) init_keywords) as [Hlo Hhi].
    pose proof (encoded_length_10000 png Hlen). lia. }
  destruct (map frame_of l) as [|f1 [|f2 [|f3 [|f4 [|f5 rest]]]]] eqn:Hfrs;
    try discriminate Hfour.
  cbn [map].
  rewrite (proj1 (Hkeys 0 f1 eq_refl)), (proj1 (Hkeys 1 f2 eq_refl)),
    (proj1 (Hkeys 2 f3 eq_refl)), (proj1 (Hkeys 3 f4 eq_refl)).
  reflexivity.
Qed.

Lemma frame_flags_witness :
  exists frs,
    frames (write_chunked blank [] init_keywords) = Some frs /\
    map (key "m") frs = [Some "1"; Some "1"; Some "1"; Some "0"].
Proof.
  destruct (frame_flags blank) as (frs & Hfrs & _ & Hm).
  exists frs. split; [exact Hfrs|].
  apply Hm. apply repeat_length.
Defined.

(** C3, as stated, fails: when the image cannot be decoded,
    [__init__] does not give an object with an empty stream. *)
Lemma undecodable_image_gives_no_stream :
  ~ (forall (Image : Type) (requests_get : string -> result bytes)
       (Image_open : bytes -> result Image) (resize_save_png : Image -> bytes)
       (url : string) (content : bytes) (e : exn),
        requests_get url = Ok content ->
        Image_open content = Raise e ->
        exists k, init requests_get Image_open resize_save_png url = Ok k /\
                  buf k = []).
Proof.
  intros H.
  destruct (H bytes get_oops open_png (fun b => b) "https://example.org/a.png"
              (encode_ascii "oops") UnidentifiedImageError eq_refl eq_refl)
    as (k & Hk & _).
  discriminate Hk.
Qed.

(** C3, amended.  When the image cannot be decoded, [__init__] raises
    what [Image.open] raises, and builds no stream. *)
Theorem decode_failure_propagates (Image : Type)
    (requests_get : string -> result bytes)
    (Image_open : bytes -> result Image) (resize_save_png : Image -> bytes)
    (url : string) (content : bytes) (e : exn) :
  requests_get url = Ok content ->
  Image_open content = Raise e ->
  init requests_get Image_open resize_save_png url = Raise e.
Proof.
  intros Hget Hopen. unfold init. rewrite Hget, Hopen. reflexivity.
Qed.

Lemma decode_failure_propagates_witness :
  init get_oops open_png (fun b => b) "https://example.org/a.png" =
  Raise UnidentifiedImageError.
Proof.
  apply (@decode_failure_propagates bytes get_oops open_png (fun b => b)
           "https://example.org/a.png" (encode_ascii "oops")
           UnidentifiedImageError);
    reflexivity.
Defined.

End ImageCodec.

(** ** The state of the application *)

Module StateFacts.
Import Lemmy App.

Section Fields.
Variable NodeInfo : Type.
Implicit Type s : App.state NodeInfo.

(** What a field holds after an assignment to a field. *)
Lemma inst_value_with_label v s : inst_value (with_label v s) = inst_value s.
Proof. reflexivity. Qed.
Lemma user_value_with_label v s : user_value (with_label v s) = user_value s.
Proof. reflexivity. Qed.
Lemma passwd_value_with_label v s : passwd_value (with_label v s) = passwd_value s.
Proof. reflexivity. Qed.
Lemma label_with_label v s : label (with_label v s) = v.
Proof. reflexivity. Qed.
Lemma app_classes_with_label v s : app_classes (with_label v s) = app_classes s.
Proof. reflexivity. Qed.
Lemma lemmy_with_label v s : lemmy (with_label v s) = lemmy s.
Proof. reflexivity. Qed.
Lemma query_value_with_label v s : query_value (with_label v s) = query_value s.
Proof. reflexivity. Qed.
Lemma searchtype_value_with_label v s : searchtype_value (with_label v s) = searchtype_value s.
Proof. reflexivity. Qed.
Lemma sorttype_value_with_label v s : sorttype_value (with_label v s) = sorttype_value s.
Proof. reflexivity. Qed.
Lemma listingtype_value_with_label v s : listingtype_value (with_label v s) = listingtype_value s.
Proof. reflexivity. Qed.
Lemma search_classes_with_label v s : search_classes (with_label v s) = search_classes s.
Proof. reflexivity. Qed.
Lemma posts_with_label v s : posts (with_label v s) = posts s.
Proof. reflexivity. Qed.
Lemma next_ident_with_label v s : next_ident (with_label v s) = next_ident s.
Proof. reflexivity. Qed.
Lemma trace_with_label v s : trace (with_label v s) = trace s.
Proof. reflexivity. Qed.
Lemma inst_value_with_app_classes v s : inst_value (with_app_classes v s) = inst_value s.
Proof. reflexivity. Qed.
Lemma user_value_with_app_classes v s : user_value (with_app_classes v s) = user_value s.
Proof. reflexivity. Qed.
Lemma passwd_value_with_app_classes v s : passwd_value (with_app_classes v s) = passwd_value s.
Proof. reflexivity. Qed.
Lemma label_with_app_classes v s : label (with_app_classes v s) = label s.
Proof. reflexivity. Qed.
Lemma app_classes_with_app_classes v s : app_classes (with_app_classes v s) = v.
Proof. reflexivity. Qed.
Lemma lemmy_with_app_classes v s : lemmy (with_app_classes v s) = lemmy s.
Proof. reflexivity. Qed.
Lemma query_value_with_app_classes v s : query_value (with_app_classes v s) = query_value s.
Proof. reflexivity. Qed.
Lemma searchtype_value_with_app_classes v s : searchtype_value (with_app_classes v s) = searchtype_value s.
Proof. reflexivity. Qed.
Lemma sorttype_value_with_app_classes v s : sorttype_value (with_app_classes v s) = sorttype_value s.
Proof. reflexivity. Qed.
Lemma listingtype_value_with_app_classes v s : listingtype_value (with_app_classes v s) = listingtype_value s.
Proof. reflexivity. Qed.
Lemma search_classes_with_app_classes v s : search_classes (with_app_classes v s) = search_classes s.
Proof. reflexivity. Qed.
Lemma posts_with_app_classes v s : posts (with_app_classes v s) = posts s.
Proof. reflexivity. Qed.
Lemma next_ident_with_app_classes v s : next_ident (with_app_classes v s) = next_ident s.
Proof. reflexivity. Qed.
Lemma trace_with_app_classes v s : trace (with_app_classes v s) = trace s.
Proof. reflexivity. Qed.
Lemma inst_value_with_lemmy v s : inst_value (with_lemmy v s) = inst_value s.
Proof. reflexivity. Qed.
Lemma user_value_with_lemmy v s : user_value (with_lemmy v s) = user_value s.
Proof. reflexivity. Qed.
Lemma passwd_value_with_lemmy v s : passwd_value (with_lemmy v s) = passwd_value s.
Proof. reflexivity. Qed.
Lemma label_with_lemmy v s : label (with_lemmy v s) = label s.
Proof. reflexivity. Qed.
Lemma app_classes_with_lemmy v s : app_classes (with_lemmy v s) = app_classes s.
Proof. reflexivity. Qed.
Lemma lemmy_with_lemmy v s : lemmy (with_lemmy v s) = v.
Proof. reflexivity. Qed.
Lemma query_value_with_lemmy v s : query_value (with_lemmy v s) = query_value s.
Proof. reflexivity. Qed.
Lemma searchtype_value_with_lemmy v s : searchtype_value (with_lemmy v s) = searchtype_value s.
Proof. reflexivity. Qed.
Lemma sorttype_value_with_lemmy v s : sorttype_value (with_lemmy v s) = sorttype_value s.
Proof. reflexivity. Qed.
Lemma listingtype_value_with_lemmy v s : listingtype_value (with_lemmy v s) = listingtype_value s.
Proof. reflexivity. Qed.
Lemma search_classes_with_lemmy v s : search_classes (with_lemmy v s) = search_classes s.
Proof. reflexivity. Qed.
Lemma posts_with_lemmy v s : posts (with_lemmy v s) = posts s.
Proof. reflexivity. Qed.
Lemma next_ident_with_lemmy v s : next_ident (with_lemmy v s) = next_ident s.
Proof. reflexivity. Qed.
Lemma trace_with_lemmy v s : trace (with_lemmy v s) = trace s.
Proof. reflexivity. Qed.
Lemma inst_value_with_search_classes v s : inst_value (with_search_classes v s) = inst_value s.
Proof. reflexivity. Qed.
Lemma user_value_with_search_classes v s : user_value (with_search_classes v s) = user_value s.
Proof. reflexivity. Qed.
Lemma passwd_value_with_search_classes v s : passwd_value (with_search_classes v s) = passwd_value s.
Proof. reflexivity. Qed.
Lemma label_with_search_classes v s : label (with_search_classes v s) = label s.
Proof. reflexivity. Qed.
Lemma app_classes_with_search_classes v s : app_classes (with_search_classes v s) = app_classes s.
Proof. reflexivity. Qed.
Lemma lemmy_with_search_classes v s : lemmy (with_search_classes v s) = lemmy s.
Proof. reflexivity. Qed.
Lemma query_value_with_search_classes v s : query_value (with_search_classes v s) = query_value s.
Proof. reflexivity. Qed.
Lemma searchtype_value_with_search_classes v s : searchtype_value (with_search_classes v s) = searchtype_value s.
Proof. reflexivity. Qed.
Lemma sorttype_value_with_search_classes v s : sorttype_value (with_search_classes v s) = sorttype_value s.
Proof. reflexivity. Qed.
Lemma listingtype_value_with_search_classes v s : listingtype_value (with_search_classes v s) = listingtype_value s.
Proof. reflexivity. Qed.
Lemma search_classes_with_search_classes v s : search_classes (with_search_classes v s) = v.
Proof. reflexivity. Qed.
Lemma posts_with_search_classes v s : posts (with_search_classes v s) = posts s.
Proof. reflexivity. Qed.
Lemma next_ident_with_search_classes v s : next_ident (with_search_classes v s) = next_ident s.
Proof. reflexivity. Qed.
Lemma trace_with_search_classes v s : trace (with_search_classes v s) = trace s.
Proof. reflexivity. Qed.
Lemma inst_value_with_posts v s : inst_value (with_posts v s) = inst_value s.
Proof. reflexivity. Qed.
Lemma user_value_with_posts v s : user_value (with_posts v s) = user_value s.
Proof. reflexivity. Qed.
Lemma passwd_value_with_posts v s : passwd_value (with_posts v s) = passwd_value s.
Proof. reflexivity. Qed.
Lemma label_with_posts v s : label (with_posts v s) = label s.
Proof. reflexivity. Qed.
Lemma app_classes_with_posts v s : app_classes (with_posts v s) = app_classes s.
Proof. reflexivity. Qed.
Lemma lemmy_with_posts v s : lemmy (with_posts v s) = lemmy s.
Proof. reflexivity. Qed.
Lemma query_value_with_posts v s : query_value (with_posts v s) = query_value s.
Proof. reflexivity. Qed.
Lemma searchtype_value_with_posts v s : searchtype_value (with_posts v s) = searchtype_value s.
Proof. reflexivity. Qed.
Lemma sorttype_value_with_posts v s : sorttype_value (with_posts v s) = sorttype_value s.
Proof. reflexivity. Qed.
Lemma listingtype_value_with_posts v s : listingtype_value (with_posts v s) = listingtype_value s.
Proof. reflexivity. Qed.
Lemma search_classes_with_posts v s : search_classes (with_posts v s) = search_classes s.
Proof. reflexivity. Qed.
Lemma posts_with_posts v s : posts (with_posts v s) = v.
Proof. reflexivity. Qed.
Lemma next_ident_with_posts v s : next_ident (with_posts v s) = next_ident s.
Proof. reflexivity. Qed.
Lemma trace_with_posts v s : trace (with_posts v s) = trace s.
Proof. reflexivity. Qed.
Lemma inst_value_with_next_ident v s : inst_value (with_next_ident v s) = inst_value s.
Proof. reflexivity. Qed.
Lemma user_value_with_next_ident v s : user_value (with_next_ident v s) = user_value s.
Proof. reflexivity. Qed.
Lemma passwd_value_with_next_ident v s : passwd_value (with_next_ident v s) = passwd_value s.
Proof. reflexivity. Qed.
Lemma label_with_next_ident v s : label (with_next_ident v s) = label s.
Proof. reflexivity. Qed.
Lemma app_classes_with_next_ident v s : app_classes (with_next_ident v s) = app_classes s.
Proof. reflexivity. Qed.
Lemma lemmy_with_next_ident v s : lemmy (with_next_ident v s) = lemmy s.
Proof. reflexivity. Qed.
Lemma query_value_with_next_ident v s : query_value (with_next_ident v s) = query_value s.
Proof. reflexivity. Qed.
Lemma searchtype_value_with_next_ident v s : searchtype_value (with_next_ident v s) = searchtype_value s.
Proof. reflexivity. Qed.
Lemma sorttype_value_with_next_ident v s : sorttype_value (with_next_ident v s) = sorttype_value s.
Proof. reflexivity. Qed.
Lemma listingtype_value_with_next_ident v s : listingtype_value (with_next_ident v s) = listingtype_value s.
Proof. reflexivity. Qed.
Lemma search_classes_with_next_ident v s : search_classes (with_next_ident v s) = search_classes s.
Proof. reflexivity. Qed.
Lemma posts_with_next_ident v s : posts (with_next_ident v s) = posts s.
Proof. reflexivity. Qed.
Lemma next_ident_with_next_ident v s : next_ident (with_next_ident v s) = v.
Proof. reflexivity. Qed.
Lemma trace_with_next_ident v s : trace (with_next_ident v s) = trace s.
Proof. reflexivity. Qed.
Lemma inst_value_with_trace v s : inst_value (with_trace v s) = inst_value s.
Proof. reflexivity. Qed.
Lemma user_value_with_trace v s : user_value (with_trace v s) = user_value s.
Proof. reflexivity. Qed.
Lemma passwd_value_with_trace v s : passwd_value (with_trace v s) = passwd_value s.
Proof. reflexivity. Qed.
Lemma label_with_trace v s : label (with_trace v s) = label s.
Proof. reflexivity. Qed.
Lemma app_classes_with_trace v s : app_classes (with_trace v s) = app_classes s.
Proof. reflexivity. Qed.
Lemma lemmy_with_trace v s : lemmy (with_trace v s) = lemmy s.
Proof. reflexivity. Qed.
Lemma query_value_with_trace v s : query_value (with_trace v s) = query_value s.
Proof. reflexivity. Qed.
Lemma searchtype_value_with_trace v s : searchtype_value (with_trace v s) = searchtype_value s.
Proof. reflexivity. Qed.
Lemma sorttype_value_with_trace v s : sorttype_value (with_trace v s) = sorttype_value s.
Proof. reflexivity. Qed.
Lemma listingtype_value_with_trace v s : listingtype_value (with_trace v s) = listingtype_value s.
Proof. reflexivity. Qed.
Lemma search_classes_with_trace v s : search_classes (with_trace v s) = search_classes s.
Proof. reflexivity. Qed.
Lemma posts_with_trace v s : posts (with_trace v s) = posts s.
Proof. reflexivity. Qed.
Lemma next_ident_with_trace v s : next_ident (with_trace v s) = next_ident s.
Proof. reflexivity. Qed.
Lemma trace_with_trace v s : trace (with_trace v s) = v.
Proof. reflexivity. Qed.

(** Two states with the same fields are the same state. *)
Lemma state_ext s1 s2 :
  inst_value s1 = inst_value s2 ->
  user_value s1 = user_value s2 ->
  passwd_value s1 = passwd_value s2 ->
  label s1 = label s2 ->
  app_classes s1 = app_classes s2 ->
  lemmy s1 = lemmy s2 ->
  query_value s1 = query_value s2 ->
  searchtype_value s1 = searchtype_value s2 ->
  sorttype_value s1 = sorttype_value s2 ->
  listingtype_value s1 = listingtype_value s2 ->
  search_classes s1 = search_classes s2 ->
  posts s1 = posts s2 ->
  next_ident s1 = next_ident s2 ->
  trace s1 = trace s2 ->
  s1 = s2.
Proof.
  destruct s1, s2. cbn. intros. subst. reflexivity.
Qed.

End Fields.

Create Rewrite HintDb state.

#[export] Hint Rewrite
  @inst_value_with_label @user_value_with_label @passwd_value_with_label
  @label_with_label @app_classes_with_label @lemmy_with_label
  @query_value_with_label @searchtype_value_with_label @sorttype_value_with_label
  @listingtype_value_with_label @search_classes_with_label @posts_with_label
  @next_ident_with_label @trace_with_label @inst_value_with_app_classes
  @user_value_with_app_classes @passwd_value_with_app_classes @label_with_app_classes
  @app_classes_with_app_classes @lemmy_with_app_classes @query_value_with_app_classes
  @searchtype_value_with_app_classes @sorttype_value_with_app_classes @listingtype_value_with_app_classes
  @search_classes_with_app_classes @posts_with_app_classes @next_ident_with_app_classes
  @trace_with_app_classes @inst_value_with_lemmy @user_value_with_lemmy
  @passwd_value_with_lemmy @label_with_lemmy @app_classes_with_lemmy
  @lemmy_with_lemmy @query_value_with_lemmy @searchtype_value_with_lemmy
  @sorttype_value_with_lemmy @listingtype_value_with_lemmy @search_classes_with_lemmy
  @posts_with_lemmy @next_ident_with_lemmy @trace_with_lemmy
  @inst_value_with_search_classes @user_value_with_search_classes @passwd_value_with_search_classes
  @label_with_search_classes @app_classes_with_search_classes @lemmy_with_search_classes
  @query_value_with_search_classes @searchtype_value_with_search_classes @sorttype_value_with_search_classes
  @listingtype_value_with_search_classes @search_classes_with_search_classes @posts_with_search_classes
  @next_ident_with_search_classes @trace_with_search_classes @inst_value_with_posts
  @user_value_with_posts @passwd_value_with_posts @label_with_posts
  @app_classes_with_posts @lemmy_with_posts @query_value_with_posts
  @searchtype_value_with_posts @sorttype_value_with_posts @listingtype_value_with_posts
  @search_classes_with_posts @posts_with_posts @next_ident_with_posts
  @trace_with_posts @inst_value_with_next_ident @user_value_with_next_ident
  @passwd_value_with_next_ident @label_with_next_ident @app_classes_with_next_ident
  @lemmy_with_next_ident @query_value_with_next_ident @searchtype_value_with_next_ident
  @sorttype_value_with_next_ident @listingtype_value_with_next_ident @search_classes_with_next_ident
  @posts_with_next_ident @next_ident_with_next_ident @trace_with_next_ident
  @inst_value_with_trace @user_value_with_trace @passwd_value_with_trace
  @label_with_trace @app_classes_with_trace @lemmy_with_trace
  @query_value_with_trace @searchtype_value_with_trace @sorttype_value_with_trace
  @listingtype_value_with_trace @search_classes_with_trace @posts_with_trace
  @next_ident_with_trace @trace_with_trace
  : state.

End StateFacts.

(** ** The application *)

Module AppFacts.
Import Lemmy Textual App StateFacts.

#[local] Arguments App.with_label : simpl never.
#[local] Arguments App.with_app_classes : simpl never.
#[local] Arguments App.with_lemmy : simpl never.
#[local] Arguments App.with_search_classes : simpl never.
#[local] Arguments App.with_posts : simpl never.
#[local] Arguments App.with_next_ident : simpl never.
#[local] Arguments App.with_trace : simpl never.

#[local] Arguments App.remove : simpl never.
#[local] Arguments App.add : simpl never.
#[local] Arguments String.eqb : simpl never.

Ltac run :=
  cbv beta iota delta [bind modify emit ret raise get];
  autorewrite with state.

(** Equality of two states, field by field. *)
Ltac same_state :=
  apply state_ext; autorewrite with state;
  rewrite <- ?app_assoc; reflexivity.

Section WithServer.
Variable NodeInfo : Type.
Variable nodeinfo_eqb : NodeInfo -> NodeInfo -> bool.
Variable nodeinfo_bool : NodeInfo -> bool.
Variable remote : server NodeInfo.
Variable textual : removal.

Local Abbreviation state := (App.state NodeInfo).
Local Abbreviation event := (App.event).

Lemma add_post_run (r : post_record) (s : state) :
  add_post r s =
  (Ok tt, with_trace (trace s ++ post_events r)
            (with_posts (posts s ++ [post_of r]) s)).
Proof.
  unfold add_post, mount, set_thumbnail, post_events, post_of.
  destruct (thumbnail_url r) as [u|]; run.
  - rewrite rev_unit, rev_involutive. f_equal. same_state.
  - f_equal.
Qed.

Lemma for_each_add_post (rs : list post_record) :
  forall s : state,
    for_each rs (@add_post NodeInfo) s =
    (Ok tt, with_trace (trace s ++ List.concat (map post_events rs))
              (with_posts (posts s ++ map post_of rs) s)).
Proof.
  induction rs as [|r rs IH]; intros s.
  - cbn [for_each map List.concat]. run. f_equal.
    apply state_ext; autorewrite with state; rewrite ?app_nil_r; reflexivity.
  - cbn [for_each map List.concat]. unfold bind at 1.
    rewrite add_post_run, IH. f_equal.
    apply state_ext; autorewrite with state; cbn [app];
      rewrite <- ?app_assoc; reflexivity.
Qed.

(** A run of [action_search] with a session: the new posts come
    behind the children that [remove_children] has left, and the
    focus goes to the first child of the view. *)
Lemma action_search_run (s : state) (l : Lemmy.t NodeInfo) :
  lemmy s = Some l ->
  let result := search remote (instance l) (logged_in l) (search_query s) in
  action_search remote textual s =
  (Ok tt,
   after s (remove "searching" (search_classes s))
     (kept textual s ++ map post_of result)
     ([ApiSearch (instance l) (search_query s); RemoveChildren;
       RemoveClass TheSearch "searching"]
        ++ List.concat (map post_events result)
        ++ match result with
           | [] => []
           | r :: _ => [Focus (hd (post_of r) (kept textual s))]
           end)).
Proof.
  intros Hl result. unfold action_search, bind at 1, get. rewrite Hl.
  unfold Lemmy_search, remove_children, search_remove_class, kept.
  fold (search_query s). fold result.
  destruct textual; run; rewrite for_each_add_post;
    unfold after, query_post, focus; autorewrite with state.
  - destruct result as [|r rs]; cbn [truthy map List.concat app]; run;
      cbn [app nth_error hd]; run; f_equal;
      apply state_ext; autorewrite with state; cbn [app];
      rewrite <- ?app_assoc; cbn [app]; rewrite ?app_nil_r; reflexivity.
  - destruct result as [|r rs]; cbn [truthy map List.concat app]; run.
    + f_equal. apply state_ext; autorewrite with state; cbn [app];
        rewrite <- ?app_assoc; cbn [app]; rewrite ?app_nil_r; reflexivity.
    + destruct (posts s) as [|p ps]; cbn [app nth_error hd]; run; f_equal;
        apply state_ext; autorewrite with state; cbn [app];
        rewrite <- ?app_assoc; cbn [app]; rewrite ?app_nil_r; reflexivity.
Qed.

(** Without a session [action_search] does nothing. *)
Lemma action_search_absent (s : state) :
  lemmy s = None -> action_search remote textual s = (Ok tt, s).
Proof.
  intros Hl. unfold action_search, bind, get. rewrite Hl. reflexivity.
Qed.

(** A new object differs from the one in the view. *)
Lemma differ_fresh (s : state) (l : Lemmy.t NodeInfo) :
  fresh s -> ident l = next_ident s -> differ (lemmy s) (Some l) = true.
Proof.
  unfold fresh, differ. intros Hf Hl.
  destruct (lemmy s) as [o|]; [|reflexivity].
  apply negb_true_iff, Nat.eqb_neq. lia.
Qed.

(** A run of [log_in] that the instance accepts. *)
Lemma log_in_run (s : state) :
  fresh s -> accepted nodeinfo_bool remote s = true ->
  log_in nodeinfo_eqb nodeinfo_bool remote textual s =
  if reruns nodeinfo_eqb remote s
  then action_search remote textual (signed_in remote s)
  else (Ok tt, signed_in remote s).
Proof.
  intros Hfresh Hacc.
  pose proof (@differ_fresh s (session_of remote s) Hfresh eq_refl) as Hd.
  unfold accepted, discovered in Hacc.
  apply andb_true_iff in Hacc as [Hinfo Hauth].
  unfold log_in, new_Lemmy, nodeinfo_truth, Lemmy_log_in, log_in_success,
    connect_lemmy_view, set_lemmy, label_update, app_add_class.
  fold (endpoint_of (inst_value s)).
  unfold reruns, signed_in, login_events, session_of in *.
  set (inst := endpoint_of (inst_value s)) in *.
  run.
  change (if negb (startswith (inst_value s) "http")
          then ("https://" ++ inst_value s)%string
          else inst_value s) with inst.
  cbn [nodeinfo instance ident logged_in]. rewrite Hinfo. cbn [negb].
  destruct (nonempty (user_value s) && nonempty (passwd_value s));
    cbn [andb fst snd negb]; run.
  - rewrite Hauth. cbn [fst snd negb]. run. rewrite Hd. run.
    unfold watch_lemmy. cbn [nodeinfo].
    replace (with_lemmy _ _) with
      (with_lemmy
         (Some {| ident := next_ident s; instance := inst;
                  nodeinfo := discover remote inst; logged_in := true |})
         (with_app_classes (add "logged" (app_classes s))
            (with_label "Success!"
               (with_next_ident (S (next_ident s))
                  (with_trace
                     (trace s ++
                      ApiLemmy inst
                      :: [ApiLogIn inst (user_value s) (passwd_value s)] ++
                         [LabelUpdate "Success!"; AddClass TheApp "logged"])
                     s)))))
      by same_state.
    destruct (lemmy s) as [o|]; [|reflexivity].
    destruct (nodeinfo_eq nodeinfo_eqb (discover remote inst) (nodeinfo o));
      reflexivity.
  - rewrite Hd. run.
    unfold watch_lemmy. cbn [nodeinfo].
    replace (with_lemmy _ _) with
      (with_lemmy
         (Some {| ident := next_ident s; instance := inst;
                  nodeinfo := discover remote inst; logged_in := false |})
         (with_app_classes (add "logged" (app_classes s))
            (with_label "Success!"
               (with_next_ident (S (next_ident s))
                  (with_trace
                     (trace s ++
                      ApiLemmy inst
                      :: [] ++ [LabelUpdate "Success!"; AddClass TheApp "logged"])
                     s)))))
      by same_state.
    destruct (lemmy s) as [o|]; [|reflexivity].
    destruct (nodeinfo_eq nodeinfo_eqb (discover remote inst) (nodeinfo o));
      reflexivity.
Qed.

(** [add_post] neither searches, nor logs in, nor clears, nor moves
    the focus. *)
Lemma post_events_plain (p : event -> bool) (rs : list post_record) :
  (forall m, p (Mount m) = true) -> (forall u, p (CreateTask u) = true) ->
  forallb p (List.concat (map post_events rs)) = true.
Proof.
  intros Hm Hc. induction rs as [|r rs IH]; [reflexivity|].
  cbn [map List.concat]. rewrite forallb_app, IH, andb_true_r.
  unfold post_events. destruct (thumbnail_url r); cbn [forallb];
    rewrite ?Hm, ?Hc; reflexivity.
Qed.

(** [add_post] mounts one post for every record, before its
    thumbnail is set. *)
Lemma mounts_of_events (rs : list post_record) :
  filter is_mount (List.concat (map post_events rs)) =
  map (fun r => Mount {| title := title (post_of r);
                         body := body (post_of r);
                         thumbnail := None |}) rs.
Proof.
  induction rs as [|r rs IH]; [reflexivity|].
  cbn [map List.concat]. rewrite filter_app, IH.
  unfold post_events at 1. destruct (thumbnail_url r); reflexivity.
Qed.

(** The trace only grows, and [action_search] does not log in. *)
Lemma action_search_trace (s : state) :
  exists evs,
    trace (snd (action_search remote textual s)) = trace s ++ evs /\
    forallb (fun e => negb (is_log_in e)) evs = true.
Proof.
  destruct (lemmy s) as [l|] eqn:Hl.
  - rewrite (action_search_run s Hl). cbn [snd]. unfold after.
    autorewrite with state. eexists. split; [reflexivity|].
    cbn [app forallb is_log_in negb andb]. rewrite forallb_app.
    rewrite post_events_plain by reflexivity.
    destruct (search remote _ _ _); reflexivity.
  - rewrite (action_search_absent s Hl). exists []. cbn [snd].
    rewrite app_nil_r. split; reflexivity.
Qed.

Lemma log_in_success_trace (l : Lemmy.t NodeInfo) (s : state) :
  exists evs,
    trace (snd (log_in_success nodeinfo_eqb remote textual l s)) =
    trace s ++ evs /\
    forallb (fun e => negb (is_log_in e)) evs = true.
Proof.
  unfold log_in_success, connect_lemmy_view, set_lemmy, label_update,
    app_add_class.
  run.
  destruct (differ (lemmy s) (Some l)); run.
  - unfold watch_lemmy.
    assert (Hsearch : forall s0 : state,
      trace s0 = trace s ++ [LabelUpdate "Success!"; AddClass TheApp "logged"] ->
      exists evs,
        trace (snd (action_search remote textual s0)) = trace s ++ evs /\
        forallb (fun e => negb (is_log_in e)) evs = true).
    { intros s0 Hs0. destruct (action_search_trace s0) as (evs & Hevs & Hq).
      rewrite Hevs, Hs0, <- app_assoc. eexists. split; [reflexivity|].
      cbn [app forallb is_log_in negb andb]. exact Hq. }
    destruct (lemmy s) as [o|].
    + destruct (nodeinfo_eq nodeinfo_eqb (nodeinfo l) (nodeinfo o)).
      * cbn [snd]. autorewrite with state. rewrite <- app_assoc.
        eexists. split; reflexivity.
      * apply Hsearch. autorewrite with state. rewrite <- app_assoc. reflexivity.
    + apply Hsearch. autorewrite with state. rewrite <- app_assoc. reflexivity.
  - cbn [snd]. autorewrite with state. rewrite <- app_assoc.
    eexists. split; reflexivity.
Qed.

(** The first thing [log_in] does to the outside is to make the
    client for the endpoint; and without a user or without a password
    it never calls the client's [log_in]. *)
Lemma log_in_trace (s : state) :
  exists evs,
    trace (snd (log_in nodeinfo_eqb nodeinfo_bool remote textual s)) =
    trace s ++ ApiLemmy (endpoint_of (inst_value s)) :: evs /\
    (nonempty (user_value s) && nonempty (passwd_value s) = false ->
     forallb (fun e => negb (is_log_in e)) evs = true).
Proof.
  unfold log_in, new_Lemmy, nodeinfo_truth, Lemmy_log_in, label_update.
  run.
  change (if negb (startswith (inst_value s) "http")
          then ("https://" ++ inst_value s)%string
          else inst_value s) with (endpoint_of (inst_value s)).
  set (inst := endpoint_of (inst_value s)).
  cbn [nodeinfo instance ident logged_in].
  assert (Hok : forall (l : Lemmy.t NodeInfo) (s0 : state) pre,
    trace s0 = (trace s ++ [ApiLemmy inst]) ++ pre ->
    exists evs,
      trace (snd (log_in_success nodeinfo_eqb remote textual l s0)) =
      trace s ++ ApiLemmy inst :: pre ++ evs /\
      forallb (fun e => negb (is_log_in e)) evs = true).
  { intros l s0 pre Hs0.
    destruct (log_in_success_trace l s0) as (evs & Hevs & Hq).
    rewrite Hevs, Hs0, <- !app_assoc. exists evs. split; [reflexivity|exact Hq]. }
  destruct (negb _).
  - cbn [snd]. autorewrite with state. rewrite <- app_assoc.
    eexists. split; [reflexivity|]. reflexivity.
  - destruct (nonempty (user_value s) && nonempty (passwd_value s)).
    + destruct (authenticate remote inst (user_value s) (passwd_value s));
        run; cbn [fst snd negb]; run.
      * match goal with
        | |- context [log_in_success _ _ _ ?l ?s0] =>
            destruct (Hok l s0 [ApiLogIn inst (user_value s) (passwd_value s)])
              as (evs & Hevs & _)
        end.
        { autorewrite with state. reflexivity. }
        rewrite Hevs. eexists. split; [reflexivity|]. discriminate.
      * autorewrite with state. rewrite <- !app_assoc.
        eexists. split; [reflexivity|]. discriminate.
    + match goal with
      | |- context [log_in_success _ _ _ ?l ?s0] =>
          destruct (Hok l s0 []) as (evs & Hevs & Hq)
      end.
      { autorewrite with state. rewrite app_nil_r. reflexivity. }
      rewrite Hevs. exists evs. split; [reflexivity|]. intros _. exact Hq.
Qed.

End WithServer.
End AppFacts.

(** ** The application: statements *)

Module Session.
Import Lemmy Textual App StateFacts AppFacts Sample.

Section WithServer.
Variable NodeInfo : Type.
Variable nodeinfo_eqb : NodeInfo -> NodeInfo -> bool.
Variable nodeinfo_bool : NodeInfo -> bool.
Variable remote : server NodeInfo.
Variable textual : removal.

Local Abbreviation state := (App.state NodeInfo).
Local Abbreviation log_in :=
  (App.log_in nodeinfo_eqb nodeinfo_bool remote textual).
Local Abbreviation action_search := (App.action_search remote textual).

(** The endpoint of the discovery call, for every login. *)
Lemma log_in_endpoint (s : state) :
  exists evs,
    trace (snd (log_in s)) = trace s ++ ApiLemmy (endpoint_of (inst_value s)) :: evs.
Proof.
  destruct (log_in_trace nodeinfo_eqb nodeinfo_bool remote textual s) as (evs & H & _).
  exists evs. exact H.
Qed.

(** C4, the part that holds: [example.org] is looked up as
    [https://example.org], as the specification normalizes it. *)
Lemma endpoint_gets_scheme (s : state) :
  inst_value s = "example.org" ->
  (exists evs,
      trace (snd (log_in s)) = trace s ++ ApiLemmy "https://example.org" :: evs) /\
  SpecLogin.normalize "example.org" = "https://example.org".
Proof.
  intros Hinst. split; [|reflexivity].
  destruct (log_in_endpoint s) as (evs & H). rewrite Hinst in H.
  exists evs. exact H.
Qed.

(** C4, where the code departs from it: the trailing separator of
    [example.org/] stays in the endpoint of the discovery call, since
    the result of [inst.strip("/")] is dropped; normalized, the
    endpoint is [https://example.org]. *)
Theorem endpoint_keeps_trailing_separator (s : state) :
  inst_value s = "example.org/" ->
  (exists evs,
      trace (snd (log_in s)) = trace s ++ ApiLemmy "https://example.org/" :: evs) /\
  SpecLogin.normalize "example.org/" = "https://example.org".
Proof.
  intros Hinst. split; [|reflexivity].
  destruct (log_in_endpoint s) as (evs & H). rewrite Hinst in H.
  exists evs. exact H.
Qed.

(** C5.  When the user or the password is empty, [log_in] never
    calls the client's [log_in]; and if discovery succeeds it ends
    without an exception on [Success!], with the application marked
    [logged] and with a session that is not authenticated in the
    view. *)
Theorem anonymous_login (s : state) :
  user_value s = "" \/ passwd_value s = "" ->
  (exists evs,
      trace (snd (log_in s)) = trace s ++ evs /\
      forallb (fun e => negb (is_log_in e)) evs = true) /\
  (fresh s -> discovered nodeinfo_bool remote s = true ->
   fst (log_in s) = Ok tt /\
   label (snd (log_in s)) = "Success!" /\
   In "logged" (app_classes (snd (log_in s))) /\
   lemmy (snd (log_in s)) = Some (session_of remote s) /\
   logged_in (session_of remote s) = false).
Proof.
  intros Hempty.
  assert (Hboth : nonempty (user_value s) && nonempty (passwd_value s) = false).
  { destruct Hempty as [-> | ->]; [reflexivity | apply andb_false_r]. }
  split.
  - destruct (log_in_trace nodeinfo_eqb nodeinfo_bool remote textual s) as (evs & H & Hq).
    exists (ApiLemmy (endpoint_of (inst_value s)) :: evs).
    split; [exact H|]. cbn [forallb is_log_in negb andb]. apply Hq, Hboth.
  - intros Hfresh Hdisc.
    assert (Hacc : accepted nodeinfo_bool remote s = true).
    { unfold accepted. rewrite Hdisc, Hboth. reflexivity. }
    rewrite (@log_in_run _ nodeinfo_eqb nodeinfo_bool remote textual s
               Hfresh Hacc).
    assert (Hin : In "logged" (add "logged" (app_classes s))).
    { unfold add. destruct (existsb (String.eqb "logged") (app_classes s)) eqn:E.
      - apply existsb_exists in E as (c & Hc & Heq).
        apply String.eqb_eq in Heq. subst c. exact Hc.
      - apply in_or_app. right. left. reflexivity. }
    assert (Hanon : logged_in (session_of remote s) = false)
      by (cbn [session_of logged_in]; exact Hboth).
    destruct (reruns nodeinfo_eqb remote s).
    + assert (Hl : lemmy (signed_in remote s) = Some (session_of remote s))
        by reflexivity.
      rewrite (@action_search_run _ remote textual _ _ Hl). cbn [fst snd]. unfold after.
      autorewrite with state. unfold signed_in. autorewrite with state.
      repeat split; assumption.
    + cbn [fst snd]. unfold signed_in. autorewrite with state.
      repeat split; assumption.
Qed.

(** C6, amended.  A login that the instance accepts ends without an
    exception and leaves the new session in [LemmyView.lemmy], in
    place of what was there.  The search runs again when the view
    held no session or one with other node information, and does not
    run when the old session has the same node information; when it
    runs, it is the search for the query that the form shows. *)
Theorem login_publishes_session (s : state) :
  fresh s -> accepted nodeinfo_bool remote s = true ->
  fst (log_in s) = Ok tt /\
  lemmy (snd (log_in s)) = Some (session_of remote s) /\
  exists evs,
    trace (snd (log_in s)) = trace s ++ evs /\
    existsb is_search evs = reruns nodeinfo_eqb remote s /\
    (reruns nodeinfo_eqb remote s = true ->
     In (ApiSearch (endpoint_of (inst_value s)) (search_query s)) evs).
Proof.
  intros Hfresh Hacc.
  rewrite (@log_in_run _ nodeinfo_eqb nodeinfo_bool remote textual s
               Hfresh Hacc).
  assert (Hquiet : existsb is_search (login_events s) = false).
  { unfold login_events.
    destruct (nonempty (user_value s) && nonempty (passwd_value s)); reflexivity. }
  destruct (reruns nodeinfo_eqb remote s).
  - assert (Hl : lemmy (signed_in remote s) = Some (session_of remote s))
      by reflexivity.
    rewrite (@action_search_run _ remote textual _ _ Hl). cbn [fst snd]. unfold after.
    autorewrite with state. unfold signed_in at 1 2. autorewrite with state.
    split; [reflexivity | split; [reflexivity|]].
    rewrite <- app_assoc. eexists. split; [reflexivity|].
    split.
    + rewrite existsb_app, Hquiet. reflexivity.
    + intros _. apply in_or_app. right. left. reflexivity.
  - cbn [fst snd]. unfold signed_in. autorewrite with state.
    split; [reflexivity | split; [reflexivity|]].
    eexists. split; [reflexivity|]. split; [exact Hquiet | discriminate].
Qed.

(** C7.  Without a session [action_search] changes nothing.  With a
    session it makes one call of [search], then calls
    [remove_children], and only then mounts the posts of the answer,
    in the order of the answer, behind the children that the call has
    left in the view.  Where the library takes the children out within
    the call, the view ends with the posts of the answer and nothing
    else.  Where it leaves the removal to the message loop, the code
    departs from the claim: the awaitable of the call is dropped, so
    the previous posts are in the view while the new ones are mounted,
    and the view ends with the previous posts in front of the new
    ones. *)
Theorem run_search (s : state) :
  (lemmy s = None -> action_search s = (Ok tt, s)) /\
  (forall l, lemmy s = Some l ->
     let answer := search remote (instance l) (logged_in l) (search_query s) in
     fst (action_search s) = Ok tt /\
     posts (snd (action_search s)) =
       match textual with
       | Immediate => map post_of answer
       | Deferred => posts s ++ map post_of answer
       end /\
     exists installs,
       trace (snd (action_search s)) =
       trace s ++ ApiSearch (instance l) (search_query s)
               :: RemoveChildren :: RemoveClass TheSearch "searching"
               :: installs /\
       forallb (fun e => negb (is_search e || is_remove_children e)) installs
       = true /\
       filter is_mount installs =
       map (fun r => Mount {| title := title (post_of r);
                              body := body (post_of r);
                              thumbnail := None |}) answer).
Proof.
  split; [apply action_search_absent|].
  intros l Hl answer.
  rewrite (@action_search_run _ remote textual s l Hl). fold answer.
  cbn [fst snd]. unfold after. autorewrite with state.
  split; [reflexivity | split; [unfold kept; destruct textual; reflexivity|]].
  eexists. split; [reflexivity|]. split.
  - rewrite forallb_app, post_events_plain by reflexivity.
    destruct answer; reflexivity.
  - rewrite filter_app, mounts_of_events.
    replace (filter is_mount match answer with
                             | [] => []
                             | r :: _ => [Focus (hd (post_of r) (kept textual s))]
                             end) with (@nil event)
      by (destruct answer; reflexivity).
    apply app_nil_r.
Qed.

(** C8.  [action_search] ends without an exception; it calls [focus]
    once, after all the mounts, when the answer is not empty, and not
    at all when the answer is empty.  The post that gets the focus is
    the first child of the view, [postview.query(Post)[0]].  Where
    the library takes the previous posts out within
    [remove_children], or the view was empty, that is the first post
    of the answer.  Where the removal is left to the message loop and
    the view held posts, the code departs from the claim: the focus
    goes to the first of the previous posts. *)
Theorem auto_focus (s : state) (l : Lemmy.t NodeInfo) :
  lemmy s = Some l ->
  let answer := search remote (instance l) (logged_in l) (search_query s) in
  fst (action_search s) = Ok tt /\
  exists before,
    trace (snd (action_search s)) =
    trace s ++ before ++
      match answer with
      | [] => []
      | r :: _ =>
          [Focus match textual, posts s with
                 | Deferred, previous :: _ => previous
                 | _, _ => post_of r
                 end]
      end /\
    forallb (fun e => negb (is_focus e)) before = true /\
    filter is_mount before =
    map (fun r => Mount {| title := title (post_of r);
                           body := body (post_of r);
                           thumbnail := None |}) answer.
Proof.
  intros Hl answer.
  rewrite (@action_search_run _ remote textual s l Hl). fold answer.
  cbn [fst snd]. unfold after. autorewrite with state.
  split; [reflexivity|].
  exists ([ApiSearch (instance l) (search_query s); RemoveChildren;
           RemoveClass TheSearch "searching"]
            ++ List.concat (map post_events answer)).
  rewrite <- app_assoc.
  split; [|split].
  - do 3 f_equal. destruct answer as [|r rs]; [reflexivity|].
    unfold kept. destruct textual; [reflexivity|].
    destruct (posts s); reflexivity.
  - rewrite forallb_app, post_events_plain by reflexivity. reflexivity.
  - cbn [app filter is_mount]. apply mounts_of_events.
Qed.

(** C10, amended.  The call of [search] in [action_search] has
    [limit=20], whatever the form shows.  The client mounts one post
    for every record of the answer and drops none, so a search
    installs as many posts as the instance returns: at most 20 with an
    instance that keeps to the limit. *)
Theorem search_limit (s : state) (l : Lemmy.t NodeInfo) :
  lemmy s = Some l ->
  let answer := search remote (instance l) (logged_in l) (search_query s) in
  (exists evs,
      trace (snd (action_search s)) = trace s ++ evs /\
      (forall inst qr, In (ApiSearch inst qr) evs -> limit qr = 20%Z) /\
      List.length (filter is_mount evs) = List.length answer) /\
  (honours_limit remote -> List.length answer <= 20).
Proof.
  intros Hl answer.
  rewrite (@action_search_run _ remote textual s l Hl). fold answer.
  cbn [snd]. unfold after. autorewrite with state. split.
  - eexists. split; [reflexivity|]. split.
    + intros inst qr Hin.
      cbn [app] in Hin. destruct Hin as [Heq | [Heq | [Heq | Hin]]];
        try discriminate Heq.
      * injection Heq as _ <-. reflexivity.
      * exfalso. apply in_app_or in Hin as [Hin | Hin].
        -- pose proof (post_events_plain (fun e => negb (is_search e)) answer
                         (fun _ => eq_refl) (fun _ => eq_refl)) as Hp.
           rewrite forallb_forall in Hp. specialize (Hp _ Hin). discriminate Hp.
        -- destruct answer; cbn in Hin;
             [contradiction | destruct Hin as [Heq|[]]; discriminate Heq].
    + cbn [app filter is_mount]. rewrite filter_app, mounts_of_events.
      rewrite length_app, length_map.
      destruct answer; cbn [filter is_mount List.length]; lia.
  - intros Hlim.
    specialize (Hlim (instance l) (logged_in l) (search_query s)).
    cbn [search_query limit] in Hlim. fold (search_query s) in Hlim.
    fold answer in Hlim. lia.
Qed.

End WithServer.

Lemma endpoint_keeps_trailing_separator_witness :
  (exists evs,
      trace (snd (log_in_at example_org (start "example.org/"))) =
      [] ++ ApiLemmy "https://example.org/" :: evs) /\
  SpecLogin.normalize "example.org/" = "https://example.org".
Proof.
  apply (@endpoint_keeps_trailing_separator string String.eqb nonempty
           example_org Deferred (start "example.org/")).
  reflexivity.
Defined.

Lemma anonymous_login_witness :
  fst (log_in_at example_org (start "example.org")) = Ok tt /\
  label once = "Success!" /\
  In "logged" (app_classes once) /\
  lemmy once = Some (session_of example_org (start "example.org")) /\
  logged_in (session_of example_org (start "example.org")) = false.
Proof.
  destruct (@anonymous_login string String.eqb nonempty example_org Deferred
              (start "example.org") (or_introl eq_refl)) as [_ H].
  apply H; [exact I | reflexivity].
Defined.

Lemma fresh_once : fresh once.
Proof. vm_compute. apply Nat.lt_0_succ. Qed.

(** C6, as stated, fails: a second login at the same instance is
    accepted and runs no search, since the old session has the same
    node information. *)
Lemma relogin_runs_no_search :
  ~ (forall s : App.state string,
        fresh s -> accepted nonempty example_org s = true ->
        exists evs,
          trace (snd (log_in_at example_org s)) = trace s ++ evs /\
          existsb is_search evs = true).
Proof.
  intros H.
  destruct (H once fresh_once eq_refl) as (evs & Htrace & Hsearch).
  assert (Hrun : trace (snd (log_in_at example_org once)) =
                 trace once ++ [ApiLemmy "https://example.org";
                                LabelUpdate "Success!";
                                AddClass TheApp "logged"])
    by (vm_compute; reflexivity).
  rewrite Hrun in Htrace. apply app_inv_head in Htrace. subst evs.
  discriminate Hsearch.
Qed.

Lemma login_publishes_session_witness :
  fst (log_in_at example_org once) = Ok tt /\
  lemmy (snd (log_in_at example_org once)) = Some (session_of example_org once) /\
  exists evs,
    trace (snd (log_in_at example_org once)) = trace once ++ evs /\
    existsb is_search evs = reruns String.eqb example_org once /\
    (reruns String.eqb example_org once = true ->
     In (ApiSearch (endpoint_of (inst_value once)) (search_query once)) evs).
Proof.
  apply (@login_publishes_session string String.eqb nonempty example_org
           Deferred once).
  - exact fresh_once.
  - reflexivity.
Defined.

(** The session of the login is in the view when the user asks for
    dogs. *)
Lemma session_asking_for_dogs : lemmy asking_for_dogs = Some first_session.
Proof. reflexivity. Qed.

Lemma run_search_witness :
  App.action_search pets_org Deferred (start "example.org")
  = (Ok tt, start "example.org") /\
  posts asking_for_dogs = map post_of cats /\
  posts (snd (App.action_search pets_org Deferred asking_for_dogs)) =
  map post_of cats ++ map post_of dogs /\
  posts (snd (App.action_search pets_org Immediate asking_for_dogs)) =
  map post_of dogs.
Proof.
  split.
  { apply (proj1 (@run_search string pets_org Deferred (start "example.org"))).
    reflexivity. }
  split; [reflexivity|]. split.
  - destruct (proj2 (@run_search string pets_org Deferred asking_for_dogs)
                first_session session_asking_for_dogs) as (_ & H & _).
    exact H.
  - destruct (proj2 (@run_search string pets_org Immediate asking_for_dogs)
                first_session session_asking_for_dogs) as (_ & H & _).
    exact H.
Defined.

Lemma auto_focus_witness :
  exists before,
    trace (snd (App.action_search pets_org Deferred asking_for_dogs)) =
    trace asking_for_dogs ++ before ++
      [Focus {| title := "a cat"; body := "purr";
                thumbnail := Some "https://example.org/cat.png" |}] /\
    filter is_mount before =
      [Mount {| title := "a dog"; body := "woof"; thumbnail := None |}].
Proof.
  destruct (@auto_focus string pets_org Deferred asking_for_dogs first_session
              session_asking_for_dogs) as (_ & before & Htrace & _ & Hmount).
  exists before. split; [exact Htrace | exact Hmount].
Defined.

Lemma example_org_honours_limit : honours_limit example_org.
Proof.
  intros inst auth qr Hpos. cbn [search example_org].
  rewrite length_firstn. lia.
Qed.

(** C10, as stated, fails: the limit is only sent along, and an
    instance that answers with 25 posts gets all of them mounted. *)
Lemma crowded_answer_is_installed :
  ~ (forall (remote : server string) (textual : removal)
            (s : App.state string),
        exists evs,
          trace (snd (App.action_search remote textual s)) = trace s ++ evs /\
          (forall inst qr, In (ApiSearch inst qr) evs -> limit qr = 20%Z) /\
          List.length (filter is_mount evs) <= 20).
Proof.
  intros H.
  destruct (H crowded_org Immediate at_crowded_org) as (evs & Htrace & _ & Hle).
  change (trace at_crowded_org ++ evs) with evs in Htrace.
  rewrite <- Htrace in Hle. vm_compute in Hle.
  repeat apply le_S_n in Hle. inversion Hle.
Qed.

Lemma search_limit_witness :
  (exists evs,
      trace (snd (App.action_search example_org Deferred once)) =
      trace once ++ evs /\
      (forall inst qr, In (ApiSearch inst qr) evs -> limit qr = 20%Z) /\
      List.length (filter is_mount evs) = 2) /\
  List.length (search example_org "https://example.org" false
                 (search_query once)) <= 20.
Proof.
  destruct (@search_limit string example_org Deferred once first_session eq_refl)
    as (Hevs & Hlim).
  split; [exact Hevs | apply Hlim, example_org_honours_limit].
Defined.

End Session.

(** ** The prototype: the selection of [main.py] *)

Module Selection.
Import Prototype Sample.

Lemma length_update {A} (f : A -> A) (l : list A) :
  forall n, List.length (update l n f) = List.length l.
Proof.
  induction l as [|x l IH]; intros [|n]; cbn [update List.length];
    try reflexivity.
  rewrite IH. reflexivity.
Qed.

Lemma position_in_range {A} (l : list A) (i : Z) :
  (0 <= i < len l)%Z -> position l i = Some (Z.to_nat i).
Proof.
  intros [Hlo Hhi]. unfold position.
  apply Z.leb_le in Hlo. apply Z.ltb_lt in Hhi. rewrite Hlo, Hhi. reflexivity.
Qed.

(** One move of the selection in a valid view. *)
Lemma move_selection_run (direction : Z) (v : PostView) :
  valid v ->
  exists v',
    _move_selection direction v = (Ok tt, v') /\
    idx v' = ((idx v + direction) mod len (posts v))%Z /\
    List.length (posts v') = List.length (posts v).
Proof.
  intros Hv. unfold valid in Hv.
  assert (Hne : truthy (posts v) = true).
  { destruct (posts v); [cbn in Hv; lia | reflexivity]. }
  unfold _move_selection, on_post, bind, get, modify, raise, ret.
  rewrite Hne. cbn [negb idx posts].
  rewrite (position_in_range _ Hv). cbn [idx posts].
  assert (Hlen : len (update (posts v) (Z.to_nat (idx v))
                        (remove_class "selected")) = len (posts v))
    by (unfold len; rewrite length_update; reflexivity).
  rewrite Hlen.
  assert (Hnew : (0 <= (idx v + direction) mod len (posts v)
                  < len (update (posts v) (Z.to_nat (idx v))
                           (remove_class "selected")))%Z).
  { rewrite Hlen. apply Z.mod_pos_bound. lia. }
  rewrite (position_in_range _ Hnew). cbn [idx posts].
  eexists. split; [reflexivity|]. cbn [idx posts].
  split; [reflexivity|]. rewrite !length_update. reflexivity.
Qed.

(** Any number of moves down in a valid view. *)
Lemma go_down_times (k : nat) :
  forall v, valid v ->
  exists v',
    times k action_go_down v = (Ok tt, v') /\
    idx v' = ((idx v + Z.of_nat k) mod len (posts v))%Z /\
    List.length (posts v') = List.length (posts v).
Proof.
  induction k as [|k IH]; intros v Hv.
  - exists v. cbn [times]. unfold ret, valid in *.
    rewrite Z.add_0_r, Z.mod_small by lia. repeat split.
  - destruct (move_selection_run 1 Hv) as (v1 & Hrun & Hidx & Hlen).
    assert (Hlen' : len (posts v1) = len (posts v))
      by (unfold len; rewrite Hlen; reflexivity).
    assert (Hv1 : valid v1).
    { unfold valid in *. rewrite Hidx, Hlen'. apply Z.mod_pos_bound. lia. }
    destruct (IH v1 Hv1) as (v' & Hrun' & Hidx' & Hlen'').
    exists v'. cbn [times]. unfold bind. unfold action_go_down at 1.
    rewrite Hrun, Hrun'. split; [reflexivity|].
    split; [|congruence].
    rewrite Hidx', Hidx, Hlen'. unfold valid in Hv.
    rewrite Zplus_mod_idemp_l. f_equal. lia.
Qed.

(** C9.  In a view with posts whose index points at one of them, a
    move by [direction] ends without an exception, keeps the posts in
    place and puts the index at [(idx + direction) mod count]: one
    further for a move down, one back for a move up, around the ends.
    So [k] moves down put it at [(idx + k) mod count], and as many
    moves down as there are posts bring it back to where it was.
    Without posts a move in either direction changes nothing and
    raises nothing. *)
Theorem selection_wraps (v : PostView) :
  (valid v ->
   (forall direction, exists v',
       _move_selection direction v = (Ok tt, v') /\
       idx v' = ((idx v + direction) mod len (posts v))%Z /\
       List.length (posts v') = List.length (posts v)) /\
   (exists v', action_go_down v = (Ok tt, v') /\
               idx v' = ((idx v + 1) mod len (posts v))%Z) /\
   (exists v', action_go_up v = (Ok tt, v') /\
               idx v' = ((idx v - 1) mod len (posts v))%Z) /\
   (forall k, exists v',
       times k action_go_down v = (Ok tt, v') /\
       idx v' = ((idx v + Z.of_nat k) mod len (posts v))%Z) /\
   (exists v',
       times (List.length (posts v)) action_go_down v = (Ok tt, v') /\
       idx v' = idx v)) /\
  (posts v = [] ->
   forall direction, _move_selection direction v = (Ok tt, v)).
Proof.
  split.
  - intros Hv. split; [|split; [|split; [|split]]].
    + intros direction. apply move_selection_run, Hv.
    + destruct (move_selection_run 1 Hv) as (v' & Hrun & Hidx & _).
      exists v'. split; assumption.
    + destruct (move_selection_run (-1) Hv) as (v' & Hrun & Hidx & _).
      exists v'. split; assumption.
    + intros k. destruct (go_down_times k Hv) as (v' & Hrun & Hidx & _).
      exists v'. split; assumption.
    + destruct (go_down_times (List.length (posts v)) Hv)
        as (v' & Hrun & Hidx & _).
      exists v'. split; [exact Hrun|].
      rewrite Hidx. fold (len (posts v)). unfold valid in Hv.
      replace (idx v + len (posts v))%Z with (idx v + 1 * len (posts v))%Z
        by lia.
      rewrite Z_mod_plus_full. apply Z.mod_small. exact Hv.
  - intros Hnil direction. unfold _move_selection, bind, get.
    rewrite Hnil. reflexivity.
Qed.

Lemma three_posts_valid : valid three_posts.
Proof. unfold valid. cbn. lia. Qed.

Lemma selection_wraps_witness :
  (exists v', action_go_down three_posts = (Ok tt, v') /\ idx v' = 2%Z) /\
  (exists v',
     times 2 action_go_down three_posts = (Ok tt, v') /\ idx v' = 0%Z) /\
  (exists v',
     times 3 action_go_down three_posts = (Ok tt, v') /\ idx v' = 1%Z) /\
  _move_selection 1 {| idx := 0; posts := [] |}
  = (Ok tt, {| idx := 0; posts := [] |}).
Proof.
  destruct (proj1 (selection_wraps three_posts) three_posts_valid)
    as (_ & Hdown & _ & Htimes & Hround).
  split; [exact Hdown|]. split; [exact (Htimes 2)|]. split; [exact Hround|].
  apply (proj2 (selection_wraps {| idx := 0; posts := [] |})).
  reflexivity.
Defined.

End Selection.

(** ** More on the image codec *)

Module ImageCodecMore.
Import Kitty Terminal KittyFacts TerminalFacts Sample.

Lemma slice_to_length {A} (l : list A) :
  forall n, List.length (slice_to n l) = Nat.min (N.to_nat n) (List.length l).
Proof.
  induction l as [|x l IH]; intros n; cbn [slice_to List.length].
  - rewrite Nat.min_0_r. reflexivity.
  - destruct (N.eqb_spec n 0) as [->|Hn].
    + reflexivity.
    + cbn [List.length]. rewrite IH. lia.
Qed.

(** The sizes of the pieces that the loop cuts. *)
Lemma sent_sizes (data : bytes) :
  forall cmd i pc,
    nth_error (sent data cmd) i = Some pc ->
    1 <= List.length (fst pc) <= 4096 /\
    (S i < List.length (sent data cmd) -> List.length (fst pc) = 4096).
Proof.
  induction data as [|data Hne IH] using chunk_ind; intros cmd i pc.
  - rewrite sent_equation_1. destruct i; discriminate.
  - rewrite (sent_step cmd Hne). cbn [List.length].
    destruct i as [|j]; cbn [nth_error].
    + intros Heq.
      assert (Hpc : fst pc = slice_to 4096 data)
        by (injection Heq as <-; reflexivity).
      rewrite Hpc, slice_to_length.
      assert (0 < List.length data) by (destruct data; [congruence | cbn; lia]).
      split; [lia|]. intros Hmore.
      destruct (slice_from 4096 data) as [|b rest] eqn:Hrest.
      * rewrite sent_equation_1 in Hmore. cbn in Hmore. lia.
      * pose proof (slice_from_length data 4096) as Hlen.
        rewrite Hrest in Hlen. cbn [List.length] in Hlen. lia.
    + intros Hj. destruct (IH [] j pc Hj) as [Hsize Hfull].
      split; [exact Hsize|]. intros Hmore. apply Hfull. lia.
Qed.

(** X1.  Every frame of [write_chunked] has a payload of 1 to 4096
    bytes, and every frame but the last has exactly 4096. *)
Theorem payload_sizes (png : bytes) :
  exists frs,
    frames (write_chunked png [] init_keywords) = Some frs /\
    forall i fr,
      nth_error frs i = Some fr ->
      1 <= List.length (payload fr) <= 4096 /\
      (S i < List.length frs -> List.length (payload fr) = 4096).
Proof.
  exists (map frame_of (sent (Base64.encode png) init_keywords)).
  split; [apply frames_write_chunked|].
  intros i fr Hfr. rewrite nth_error_map in Hfr.
  destruct (nth_error (sent (Base64.encode png) init_keywords) i) as [pc|] eqn:Hpc;
    [|discriminate].
  injection Hfr as <-. rewrite length_map. cbn [frame_of payload].
  apply (sent_sizes _ _ _ Hpc).
Qed.

Lemma printable_seven_bit (c : byte) :
  Base64.printable c = true -> seven_bit c = true.
Proof. destruct c; vm_compute; congruence. Qed.

Lemma forallb_concat {A} (p : A -> bool) (ls : list (list A)) :
  Forall (fun l => forallb p l = true) ls -> forallb p (List.concat ls) = true.
Proof.
  induction 1 as [|l ls Hl Hls IH]; [reflexivity|].
  cbn [List.concat]. rewrite forallb_app, Hl, IH. reflexivity.
Qed.

(** X3.  The stream that [__init__] builds holds only bytes below
    128, so that [self.buf.read().decode()] cannot fail on it. *)
Theorem stream_is_ascii (png : bytes) :
  forallb seven_bit (write_chunked png [] init_keywords) = true.
Proof.
  unfold write_chunked. rewrite write_loop_sent. cbn [app].
  apply forallb_concat. rewrite Forall_map, Forall_forall.
  intros pc Hin.
  assert (Hdata : forallb seven_bit (Base64.encode png) = true).
  { pose proof (Base64Facts.printable_encode png) as Hp.
    rewrite forallb_forall in *. intros x Hx.
    apply printable_seven_bit, Hp, Hx. }
  pose proof (@sent_pieces seven_bit _ init_keywords Hdata) as Hp.
  rewrite Forall_forall in Hp. destruct (Hp pc Hin) as [Ht Hseven].
  assert (Hctl : forallb seven_bit (control_data (snd pc)) = true).
  { destruct (In_nth_error _ _ Hin) as [i Hi].
    rewrite (sent_keywords _ _ _ Hi).
    destruct (Nat.eqb (S i) _), (Nat.eqb i 0); reflexivity. }
  rewrite (frame_bytes_eq pc Ht).
  rewrite !forallb_app. cbn [forallb]. rewrite forallb_app.
  rewrite !andb_true_iff. repeat split; (reflexivity || assumption).
Qed.

(** X4.  The block-character path has no fallback either: when the
    download or [Image.open] raises, [PixelImage.__init__] lets the
    exception through, and it is the exception that
    [KittyImage.__init__] raises for the same address, since both
    start with the same two calls. *)
Theorem same_failures (Image Pixels : Type)
    (requests_get : string -> result bytes)
    (Image_open : bytes -> result Image)
    (resize_save_png : Image -> bytes) (pixels_from_resized : Image -> Pixels)
    (url : string) (e : exn) :
  requests_get url = Raise e \/
  (exists content,
      requests_get url = Ok content /\ Image_open content = Raise e) ->
  Pixel.init requests_get Image_open pixels_from_resized url = Raise e /\
  Kitty.init requests_get Image_open resize_save_png url = Raise e.
Proof.
  unfold Kitty.init, Pixel.init.
  intros [Hget | (content & Hget & Hopen)]; rewrite Hget.
  - split; reflexivity.
  - rewrite Hopen. split; reflexivity.
Qed.

Lemma same_failures_witness :
  Pixel.init get_oops open_png (fun b => List.length b)
    "https://example.org/a.png" = Raise UnidentifiedImageError /\
  Kitty.init get_oops open_png (fun b => b)
    "https://example.org/a.png" = Raise UnidentifiedImageError.
Proof.
  apply (@same_failures bytes nat get_oops open_png (fun b => b)
           (fun b => List.length b) "https://example.org/a.png"
           UnidentifiedImageError).
  right. exists (encode_ascii "oops"). split; reflexivity.
Defined.

End ImageCodecMore.

(** ** More on the application *)

Module SessionMore.
Import Lemmy Textual App StateFacts AppFacts Sample.

#[local] Arguments App.with_label : simpl never.
#[local] Arguments App.with_app_classes : simpl never.
#[local] Arguments App.with_lemmy : simpl never.
#[local] Arguments App.with_search_classes : simpl never.
#[local] Arguments App.with_posts : simpl never.
#[local] Arguments App.with_next_ident : simpl never.
#[local] Arguments App.with_trace : simpl never.

Section WithServer.
Variable NodeInfo : Type.
Variable nodeinfo_eqb : NodeInfo -> NodeInfo -> bool.
Variable nodeinfo_bool : NodeInfo -> bool.
Variable remote : server NodeInfo.
Variable textual : removal.

Local Abbreviation state := (App.state NodeInfo).
Local Abbreviation log_in :=
  (App.log_in nodeinfo_eqb nodeinfo_bool remote textual).
Local Abbreviation action_search := (App.action_search remote textual).

Ltac start_log_in s :=
  unfold App.log_in, new_Lemmy, nodeinfo_truth, Lemmy_log_in, label_update;
  run;
  change (if negb (startswith (inst_value s) "http")
          then ("https://" ++ inst_value s)%string
          else inst_value s) with (endpoint_of (inst_value s));
  cbn [nodeinfo instance ident logged_in].

(** X5.  When discovery fails, [log_in] reports the failed
    connection on the label and stops: it makes no call of the
    client's [log_in] and no search, and it leaves the session, the
    posts and the classes of the application as they were. *)
Theorem connection_failure (s : state) :
  discovered nodeinfo_bool remote s = false ->
  let msg := ("Failed connection to " ++ endpoint_of (inst_value s))%string in
  fst (log_in s) = Ok tt /\
  label (snd (log_in s)) = msg /\
  trace (snd (log_in s)) =
    trace s ++ [ApiLemmy (endpoint_of (inst_value s)); LabelUpdate msg] /\
  lemmy (snd (log_in s)) = lemmy s /\
  posts (snd (log_in s)) = posts s /\
  app_classes (snd (log_in s)) = app_classes s.
Proof.
  intros Hdisc msg. subst msg. unfold discovered in Hdisc.
  start_log_in s. rewrite Hdisc. cbn [negb fst snd].
  autorewrite with state. rewrite <- app_assoc.
  repeat split; reflexivity.
Qed.

(** X6.  When the instance rejects the user and the password,
    [log_in] has made one call of the client's [log_in], after the
    discovery, reports the failed login on the label and stops; the
    session, the posts and the classes of the application stay as
    they were. *)
Theorem authentication_failure (s : state) :
  discovered nodeinfo_bool remote s = true ->
  nonempty (user_value s) = true -> nonempty (passwd_value s) = true ->
  authenticate remote (endpoint_of (inst_value s)) (user_value s)
    (passwd_value s) = false ->
  let inst := endpoint_of (inst_value s) in
  let msg := ("Failed login for " ++ user_value s)%string in
  fst (log_in s) = Ok tt /\
  label (snd (log_in s)) = msg /\
  trace (snd (log_in s)) =
    trace s ++ [ApiLemmy inst; ApiLogIn inst (user_value s) (passwd_value s);
                LabelUpdate msg] /\
  lemmy (snd (log_in s)) = lemmy s /\
  posts (snd (log_in s)) = posts s /\
  app_classes (snd (log_in s)) = app_classes s.
Proof.
  intros Hdisc Huser Hpasswd Hauth inst msg. subst inst msg.
  unfold discovered in Hdisc.
  start_log_in s. rewrite Hdisc, Huser, Hpasswd. cbn [negb andb].
  rewrite Hauth. run. cbn [fst snd negb]. run. cbn [fst snd].
  autorewrite with state. rewrite <- !app_assoc.
  repeat split; reflexivity.
Qed.

(** X7.  With a user and a password that the instance takes,
    [log_in] calls the client's [log_in] once, after the discovery and
    before it reports success, and the session that it leaves in the
    view is authenticated. *)
Theorem authenticated_login (s : state) :
  fresh s ->
  discovered nodeinfo_bool remote s = true ->
  nonempty (user_value s) = true -> nonempty (passwd_value s) = true ->
  authenticate remote (endpoint_of (inst_value s)) (user_value s)
    (passwd_value s) = true ->
  let inst := endpoint_of (inst_value s) in
  (exists l, lemmy (snd (log_in s)) = Some l /\
             logged_in l = true /\ instance l = inst) /\
  exists evs,
    trace (snd (log_in s)) =
      trace s ++ ApiLemmy inst :: ApiLogIn inst (user_value s) (passwd_value s)
              :: LabelUpdate "Success!" :: AddClass TheApp "logged" :: evs /\
    forallb (fun e => negb (is_log_in e)) evs = true.
Proof.
  intros Hfresh Hdisc Huser Hpasswd Hauth inst. subst inst.
  assert (Hacc : accepted nodeinfo_bool remote s = true).
  { unfold accepted. rewrite Hdisc, Huser, Hpasswd. cbn [andb]. exact Hauth. }
  rewrite (@log_in_run _ nodeinfo_eqb nodeinfo_bool remote textual s
               Hfresh Hacc).
  assert (Hsession : logged_in (session_of remote s) = true /\
                     instance (session_of remote s) = endpoint_of (inst_value s)).
  { cbn [session_of logged_in instance]. rewrite Huser, Hpasswd.
    split; reflexivity. }
  assert (Hevents : login_events s =
                    [ApiLemmy (endpoint_of (inst_value s));
                     ApiLogIn (endpoint_of (inst_value s))
                       (user_value s) (passwd_value s);
                     LabelUpdate "Success!"; AddClass TheApp "logged"]).
  { unfold login_events. rewrite Huser, Hpasswd. reflexivity. }
  destruct (reruns nodeinfo_eqb remote s).
  - destruct (action_search_trace remote textual (signed_in remote s))
      as (evs & Hevs & Hq).
    assert (Hl : lemmy (signed_in remote s) = Some (session_of remote s))
      by reflexivity.
    split.
    + exists (session_of remote s). split; [|exact Hsession].
      rewrite (@action_search_run _ remote textual _ _ Hl). cbn [snd]. unfold after.
      autorewrite with state. reflexivity.
    + exists evs. split; [|exact Hq].
      rewrite Hevs. unfold signed_in. autorewrite with state.
      rewrite Hevents, <- app_assoc. reflexivity.
  - cbn [snd]. split.
    + exists (session_of remote s). split; [reflexivity | exact Hsession].
    + exists []. split; [|reflexivity].
      unfold signed_in. autorewrite with state. rewrite Hevents. reflexivity.
Qed.

(** X8.  The endpoint that [log_in] makes of the address starts
    with [http], and making it again of the result changes nothing:
    the scheme is put in front at most once. *)
Theorem endpoint_has_prefix (inst : string) :
  startswith (endpoint_of inst) "http" = true /\
  endpoint_of (endpoint_of inst) = endpoint_of inst.
Proof.
  assert (H : startswith (endpoint_of inst) "http" = true).
  { unfold endpoint_of. destruct (startswith inst "http") eqn:E; cbn [negb].
    - exact E.
    - reflexivity. }
  split; [exact H|].
  unfold endpoint_of at 1. rewrite H. reflexivity.
Qed.

(** [action_search] changes neither the session nor the count of
    objects nor the form. *)
Lemma action_search_frame (s : state) :
  lemmy (snd (action_search s)) = lemmy s /\
  next_ident (snd (action_search s)) = next_ident s /\
  search_query (snd (action_search s)) = search_query s /\
  label (snd (action_search s)) = label s /\
  app_classes (snd (action_search s)) = app_classes s.
Proof.
  destruct (lemmy s) as [l|] eqn:Hl.
  - rewrite (@action_search_run _ remote textual s l Hl). cbn [snd].
    unfold after, search_query. autorewrite with state.
    rewrite Hl. repeat split; reflexivity.
  - rewrite (action_search_absent remote textual s Hl). cbn [snd].
    rewrite Hl. repeat split; reflexivity.
Qed.

(** X10.  Every [log_in] makes one new client object, and the object
    in the view stays older than every object still to be made: a
    new session is never the same object as the session it
    replaces. *)
Theorem object_identity (s : state) :
  fresh s ->
  fresh (snd (log_in s)) /\
  next_ident (snd (log_in s)) = S (next_ident s).
Proof.
  intros Hfresh.
  destruct (accepted nodeinfo_bool remote s) eqn:Hacc.
  - rewrite (@log_in_run _ nodeinfo_eqb nodeinfo_bool remote textual s
               Hfresh Hacc).
    assert (Hsigned : fresh (signed_in remote s) /\
                      next_ident (signed_in remote s) = S (next_ident s)).
    { unfold fresh, signed_in. autorewrite with state.
      cbn [session_of ident]. split; [lia | reflexivity]. }
    destruct (reruns nodeinfo_eqb remote s); [|exact Hsigned].
    destruct (action_search_frame (signed_in remote s)) as (Hl & Hn & _).
    unfold fresh. rewrite Hl, Hn. exact Hsigned.
  - unfold accepted in Hacc. apply andb_false_iff in Hacc.
    destruct (discovered nodeinfo_bool remote s) eqn:Hdisc.
    + destruct Hacc as [Hacc | Hacc]; [discriminate|].
      destruct (nonempty (user_value s) && nonempty (passwd_value s)) eqn:Hboth;
        [|discriminate].
      apply andb_true_iff in Hboth as [Huser Hpasswd].
      unfold discovered in Hdisc.
      start_log_in s. rewrite Hdisc, Huser, Hpasswd. cbn [negb andb].
      rewrite Hacc. run. cbn [fst snd negb]. run. cbn [snd].
      unfold fresh in *. autorewrite with state.
      split; [|reflexivity]. destruct (lemmy s); [lia | exact I].
    + unfold discovered in Hdisc.
      start_log_in s. rewrite Hdisc. cbn [negb snd].
      unfold fresh in *. autorewrite with state.
      split; [|reflexivity]. destruct (lemmy s); [lia | exact I].
Qed.

(** X12.  A search with a session takes the class [searching] off
    the search widget and keeps its other classes; without a session
    the classes stay as they are. *)
Theorem searching_class_cleared (s : state) (cls : string) :
  (lemmy s <> None ->
   (In cls (search_classes (snd (action_search s))) <->
    In cls (search_classes s) /\ cls <> "searching")) /\
  (lemmy s = None ->
   search_classes (snd (action_search s)) = search_classes s).
Proof.
  split.
  - intros Hsome. destruct (lemmy s) as [l|] eqn:Hl; [|congruence].
    rewrite (@action_search_run _ remote textual s l Hl). cbn [snd].
    unfold after. autorewrite with state.
    unfold remove. rewrite filter_In. rewrite negb_true_iff.
    split; intros [Hin Hneq]; (split; [exact Hin|]).
    + apply String.eqb_neq in Hneq. congruence.
    + apply String.eqb_neq. congruence.
  - intros Hl. rewrite (action_search_absent remote textual s Hl). reflexivity.
Qed.

Lemma thumbnail_tasks_of_events (answer : list post_record) :
  filter is_create_task (List.concat (map post_events answer)) =
  thumbnail_tasks answer.
Proof.
  induction answer as [|r rs IH]; [reflexivity|].
  cbn [map List.concat thumbnail_tasks flat_map]. rewrite filter_app, IH.
  unfold post_events. destruct (thumbnail_url r); reflexivity.
Qed.

(** X13.  A search starts one thumbnail task for every post of the
    answer that has a thumbnail address, in the order of the answer,
    and none for the others; the posts that it has mounted, the last
    of the view, hold the addresses of their records. *)
Theorem thumbnails_requested (s : state) (l : Lemmy.t NodeInfo) :
  lemmy s = Some l ->
  let answer := search remote (instance l) (logged_in l) (search_query s) in
  let view := posts (snd (action_search s)) in
  map thumbnail (skipn (List.length view - List.length answer) view) =
  map thumbnail_url answer /\
  exists evs,
    trace (snd (action_search s)) = trace s ++ evs /\
    filter is_create_task evs = thumbnail_tasks answer.
Proof.
  intros Hl answer view. subst view.
  rewrite (@action_search_run _ remote textual s l Hl). fold answer.
  cbn [snd]. unfold after. autorewrite with state. split.
  - rewrite length_app, length_map.
    replace (List.length (kept textual s) + List.length answer
             - List.length answer)
      with (List.length (kept textual s)) by lia.
    rewrite skipn_app, skipn_all, Nat.sub_diag. cbn [skipn app].
    rewrite map_map. reflexivity.
  - eexists. split; [reflexivity|].
    cbn [app filter is_create_task].
    rewrite filter_app, thumbnail_tasks_of_events.
    destruct answer; cbn [filter is_create_task]; apply app_nil_r.
Qed.

(** X14.  [action_log_in] takes the class [logged] off the
    application and keeps the other classes; the session and the
    posts stay. *)
Theorem log_in_view_shown (s : state) (cls : string) :
  let s' := snd (action_log_in s) in
  (In cls (app_classes s') <-> In cls (app_classes s) /\ cls <> "logged") /\
  lemmy s' = lemmy s /\
  posts s' = posts s.
Proof.
  unfold action_log_in. run. cbn [snd]. autorewrite with state.
  split; [|split; reflexivity].
  unfold remove. rewrite filter_In. rewrite negb_true_iff.
  split; intros [Hin Hneq]; (split; [exact Hin|]).
  - apply String.eqb_neq in Hneq. congruence.
  - apply String.eqb_neq. congruence.
Qed.

(** With an empty view [action_search] does the same whichever way
    the library removes children. *)
Lemma action_search_from_empty (s : state) :
  posts s = [] ->
  App.action_search remote Deferred s = App.action_search remote Immediate s.
Proof.
  intros Hempty. destruct (lemmy s) as [l|] eqn:Hl.
  - rewrite (@action_search_run _ remote Deferred s l Hl).
    rewrite (@action_search_run _ remote Immediate s l Hl).
    unfold kept. rewrite Hempty. reflexivity.
  - rewrite (action_search_absent remote Deferred s Hl).
    rewrite (action_search_absent remote Immediate s Hl). reflexivity.
Qed.

Lemma log_in_success_from_empty (l : Lemmy.t NodeInfo) (s : state) :
  posts s = [] ->
  log_in_success nodeinfo_eqb remote Deferred l s =
  log_in_success nodeinfo_eqb remote Immediate l s.
Proof.
  intros Hempty.
  unfold log_in_success, connect_lemmy_view, set_lemmy, label_update,
    app_add_class.
  run.
  destruct (differ (lemmy s) (Some l)); run; [|reflexivity].
  unfold watch_lemmy.
  assert (Hsearch : forall s0 : state, posts s0 = [] ->
            App.action_search remote Deferred s0 =
            App.action_search remote Immediate s0)
    by (intros s0; apply action_search_from_empty).
  destruct (lemmy s) as [o|].
  - destruct (nodeinfo_eq nodeinfo_eqb (nodeinfo l) (nodeinfo o));
      [reflexivity|].
    apply Hsearch. autorewrite with state. exact Hempty.
  - apply Hsearch. autorewrite with state. exact Hempty.
Qed.

(** X20.  As long as the view holds no posts, as at the first login,
    the way in which the library removes children makes no
    difference: [log_in] and [action_search] end in the same state,
    with the same calls, whether [remove_children] takes the children
    out at once or leaves that to the message loop. *)
Theorem first_search_is_clean (s : state) :
  posts s = [] ->
  App.log_in nodeinfo_eqb nodeinfo_bool remote Deferred s =
  App.log_in nodeinfo_eqb nodeinfo_bool remote Immediate s /\
  App.action_search remote Deferred s = App.action_search remote Immediate s.
Proof.
  intros Hempty. split; [|apply action_search_from_empty, Hempty].
  start_log_in s.
  destruct (negb _); [reflexivity|].
  destruct (nonempty (user_value s) && nonempty (passwd_value s)).
  - destruct (authenticate remote _ _ _); run; cbn [fst snd negb]; run.
    + apply log_in_success_from_empty. autorewrite with state. exact Hempty.
    + reflexivity.
  - apply log_in_success_from_empty. autorewrite with state. exact Hempty.
Qed.

End WithServer.

Lemma first_search_is_clean_witness :
  log_in_at example_org (start "example.org") =
  App.log_in String.eqb nonempty example_org Immediate (start "example.org") /\
  App.action_search example_org Deferred (start "example.org") =
  App.action_search example_org Immediate (start "example.org").
Proof.
  apply (@first_search_is_clean string String.eqb nonempty example_org
           (start "example.org")).
  reflexivity.
Defined.

Lemma connection_failure_witness :
  label (snd (log_in_at example_org (start "nowhere.test"))) =
  "Failed connection to https://nowhere.test" /\
  lemmy (snd (log_in_at example_org (start "nowhere.test"))) = None.
Proof.
  destruct (@connection_failure string String.eqb nonempty example_org
              Deferred (start "nowhere.test") eq_refl)
    as (_ & Hlabel & _ & Hlemmy & _).
  split; [exact Hlabel | exact Hlemmy].
Defined.

Lemma authentication_failure_witness :
  label (snd (log_in_at example_org intruder)) = "Failed login for eve" /\
  lemmy (snd (log_in_at example_org intruder)) = None.
Proof.
  destruct (@authentication_failure string String.eqb nonempty example_org
              Deferred intruder eq_refl eq_refl eq_refl eq_refl)
    as (_ & Hlabel & _ & Hlemmy & _).
  split; [exact Hlabel | exact Hlemmy].
Defined.

Lemma authenticated_login_witness :
  exists l, lemmy (snd (log_in_at example_org member)) = Some l /\
            logged_in l = true /\ instance l = "https://example.org".
Proof.
  exact (proj1 (@authenticated_login string String.eqb nonempty example_org
                  Deferred member I eq_refl eq_refl eq_refl eq_refl)).
Defined.

Lemma object_identity_witness :
  fresh once /\ next_ident once = 1.
Proof.
  apply (@object_identity string String.eqb nonempty example_org Deferred
           (start "example.org")).
  exact I.
Defined.

Lemma searching_class_cleared_witness :
  (In "searching"
      (search_classes (snd (App.action_search example_org Deferred once))) <->
   In "searching" (search_classes once) /\ "searching" <> "searching") /\
  search_classes
    (snd (App.action_search example_org Deferred (start "example.org"))) =
  search_classes (start "example.org").
Proof.
  split.
  - apply (proj1 (@searching_class_cleared string example_org Deferred once
                    "searching")).
    vm_compute. discriminate.
  - apply (proj2 (@searching_class_cleared string example_org Deferred
                    (start "example.org") "searching")).
    reflexivity.
Defined.

Lemma thumbnails_requested_witness :
  map thumbnail
    (skipn 2 (posts (snd (App.action_search example_org Deferred once)))) =
  [Some "https://example.org/cat.png"; None] /\
  exists evs,
    trace (snd (App.action_search example_org Deferred once)) =
    trace once ++ evs /\
    filter is_create_task evs = [CreateTask "https://example.org/cat.png"].
Proof.
  exact (@thumbnails_requested string example_org Deferred once first_session
           eq_refl).
Defined.

End SessionMore.

(** ** More on the selection of the prototype *)

Module SelectionMore.
Import Prototype Sample Selection.

Lemma position_indexable {A} (l : list A) (i : Z) :
  (- len l <= i < len l)%Z ->
  exists n, position l i = Some n /\ n < List.length l.
Proof.
  intros Hi. unfold position, len in *.
  destruct (Z.leb_spec 0 i); destruct (Z.ltb_spec i (Z.of_nat (List.length l)));
    cbn [andb]; try lia.
  - exists (Z.to_nat i). split; [reflexivity | lia].
  - destruct (Z.leb_spec (- Z.of_nat (List.length l)) i);
      destruct (Z.ltb_spec i 0); cbn [andb]; try lia.
    exists (Z.to_nat (Z.of_nat (List.length l) + i)). split; [reflexivity | lia].
Qed.

Lemma position_outside {A} (l : list A) (i : Z) :
  (i < - len l \/ len l <= i)%Z -> position l i = None.
Proof.
  intros Hi. unfold position, len in *.
  destruct (Z.leb_spec 0 i); destruct (Z.ltb_spec i (Z.of_nat (List.length l)));
    cbn [andb]; try lia; try reflexivity;
    destruct (Z.leb_spec (- Z.of_nat (List.length l)) i);
    destruct (Z.ltb_spec i 0); cbn [andb]; try lia; reflexivity.
Qed.

Lemma len_update {A} (f : A -> A) (l : list A) (n : nat) :
  len (update l n f) = len l.
Proof. unfold len. rewrite length_update. reflexivity. Qed.

(** X15.  A move in either direction, from any index that the
    indexing takes, ends without an exception with the index on one
    of the posts, and the view has as many posts as before. *)
Theorem index_stays_valid (direction : Z) (v : PostView) :
  posts v <> [] -> indexable v ->
  exists v',
    _move_selection direction v = (Ok tt, v') /\
    valid v' /\
    idx v' = ((idx v + direction) mod len (posts v))%Z /\
    List.length (posts v') = List.length (posts v).
Proof.
  intros Hne Hv. unfold indexable in Hv.
  assert (Htruthy : truthy (posts v) = true)
    by (destruct (posts v); [congruence | reflexivity]).
  assert (Hpos : (0 < len (posts v))%Z) by lia.
  unfold _move_selection, on_post, bind, get, modify, raise, ret.
  rewrite Htruthy. cbn [negb idx posts].
  destruct (position_indexable _ Hv) as (n & -> & _). cbn [idx posts].
  rewrite len_update.
  assert (Hnew : (0 <= (idx v + direction) mod len (posts v)
                  < len (update (posts v) n (remove_class "selected")))%Z)
    by (rewrite len_update; apply Z.mod_pos_bound; exact Hpos).
  rewrite (position_in_range _ Hnew). cbn [idx posts].
  eexists. split; [reflexivity|]. unfold valid. cbn [idx posts].
  rewrite !len_update, !length_update.
  split; [apply Z.mod_pos_bound; exact Hpos | split; reflexivity].
Qed.

Lemma index_stays_valid_witness :
  exists v',
    _move_selection 1 from_end = (Ok tt, v') /\
    valid v' /\
    idx v' = ((idx from_end + 1) mod len (posts from_end))%Z /\
    List.length (posts v') = List.length (posts from_end).
Proof.
  apply (@index_stays_valid 1 from_end).
  - discriminate.
  - unfold indexable. cbn. lia.
Defined.

(** X16.  In a valid view a move up followed by a move down brings
    the index back; the move up from the first post goes to the
    last. *)
Theorem up_then_down (v : PostView) :
  valid v ->
  exists v1 v2,
    action_go_up v = (Ok tt, v1) /\
    action_go_down v1 = (Ok tt, v2) /\
    idx v2 = idx v /\
    (idx v = 0%Z -> idx v1 = (len (posts v) - 1)%Z).
Proof.
  intros Hv.
  destruct (move_selection_run (-1) Hv) as (v1 & Hup & Hidx1 & Hlen1).
  assert (Hlen1' : len (posts v1) = len (posts v))
    by (unfold len; rewrite Hlen1; reflexivity).
  unfold valid in Hv.
  assert (Hv1 : valid v1).
  { unfold valid. rewrite Hidx1, Hlen1'. apply Z.mod_pos_bound. lia. }
  destruct (move_selection_run 1 Hv1) as (v2 & Hdown & Hidx2 & _).
  exists v1, v2. split; [exact Hup | split; [exact Hdown | split]].
  - rewrite Hidx2, Hidx1, Hlen1'. rewrite Zplus_mod_idemp_l.
    replace (idx v + -1 + 1)%Z with (idx v) by lia.
    apply Z.mod_small. exact Hv.
  - intros H0. rewrite Hidx1, H0.
    replace (0 + -1)%Z with (len (posts v) - 1 + (-1) * len (posts v))%Z by lia.
    rewrite Z_mod_plus_full. apply Z.mod_small. lia.
Qed.

Lemma up_then_down_witness :
  exists v1 v2,
    action_go_up three_posts = (Ok tt, v1) /\
    action_go_down v1 = (Ok tt, v2) /\
    idx v2 = idx three_posts /\
    (idx three_posts = 0%Z -> idx v1 = (len (posts three_posts) - 1)%Z).
Proof.
  apply (@up_then_down three_posts). unfold valid. cbn. lia.
Defined.

(** X17.  With posts in the view and an index outside of them, a move
    raises [IndexError] and changes nothing. *)
Theorem stale_index_raises (direction : Z) (v : PostView) :
  posts v <> [] ->
  (idx v < - len (posts v) \/ len (posts v) <= idx v)%Z ->
  _move_selection direction v = (Raise IndexError, v).
Proof.
  intros Hne Hout.
  assert (Htruthy : truthy (posts v) = true)
    by (destruct (posts v); [congruence | reflexivity]).
  unfold _move_selection, on_post, bind, get, modify, raise, ret.
  rewrite Htruthy. cbn [negb idx posts].
  rewrite (@position_outside _ _ _ Hout). reflexivity.
Qed.

Lemma stale_index_raises_witness :
  _move_selection 1 stale = (Raise IndexError, stale).
Proof.
  apply (@stale_index_raises 1 stale).
  - discriminate.
  - right. cbn. lia.
Defined.

Lemma nth_error_update {A} (f : A -> A) (l : list A) :
  forall n m,
    nth_error (update l n f) m =
    if Nat.eqb m n then option_map f (nth_error l m) else nth_error l m.
Proof.
  induction l as [|x l IH]; intros n m.
  - cbn [update]. destruct m; destruct (Nat.eqb _ n); reflexivity.
  - destruct n as [|n], m as [|m]; cbn [update nth_error Nat.eqb option_map];
      try reflexivity.
    apply IH.
Qed.

Lemma selected_remove_class (p : Post) :
  selected (remove_class "selected" p) = false.
Proof.
  unfold selected, remove_class. induction p as [|c p IH]; [reflexivity|].
  cbn [filter]. destruct (String.eqb "selected" c) eqn:E; cbn [negb].
  - exact IH.
  - cbn [existsb]. rewrite E, IH. reflexivity.
Qed.

Lemma selected_add_class (p : Post) :
  selected (add_class "selected" p) = true.
Proof.
  unfold add_class. fold (selected p). destruct (selected p) eqn:E.
  - exact E.
  - unfold selected. rewrite existsb_app. cbn [existsb].
    rewrite String.eqb_refl. apply orb_true_r.
Qed.

(** The view after a move from a valid view. *)
Lemma move_selection_posts (direction : Z) (v : PostView) :
  valid v ->
  let i := ((idx v + direction) mod len (posts v))%Z in
  _move_selection direction v =
  (Ok tt,
   {| idx := i;
      posts := update (update (posts v) (Z.to_nat (idx v))
                         (remove_class "selected"))
                      (Z.to_nat i) (add_class "selected") |}).
Proof.
  intros Hv i. subst i. unfold valid in Hv.
  assert (Htruthy : truthy (posts v) = true)
    by (destruct (posts v); [cbn in Hv; lia | reflexivity]).
  unfold _move_selection, on_post, bind, get, modify, raise, ret.
  rewrite Htruthy. cbn [negb idx posts].
  rewrite (position_in_range _ Hv). cbn [idx posts].
  rewrite len_update.
  assert (Hnew : (0 <= (idx v + direction) mod len (posts v)
                  < len (update (posts v) (Z.to_nat (idx v))
                           (remove_class "selected")))%Z)
    by (rewrite len_update; apply Z.mod_pos_bound; lia).
  rewrite (position_in_range _ Hnew). reflexivity.
Qed.

(** X18.  When no post but the one under the index is selected, a
    move leaves exactly the post under the new index selected. *)
Theorem one_post_selected (direction : Z) (v : PostView) :
  valid v ->
  (forall n p, nth_error (posts v) n = Some p -> selected p = true ->
               n = Z.to_nat (idx v)) ->
  exists v',
    _move_selection direction v = (Ok tt, v') /\
    forall n p, nth_error (posts v') n = Some p ->
                (selected p = true <-> n = Z.to_nat (idx v')).
Proof.
  intros Hv Honly. rewrite (move_selection_posts direction Hv).
  eexists. split; [reflexivity|]. cbn [idx posts].
  intros n p. rewrite !nth_error_update.
  destruct (Nat.eqb_spec n (Z.to_nat ((idx v + direction) mod len (posts v))))
    as [Hnew | Hnew].
  - destruct (Nat.eqb n (Z.to_nat (idx v)));
      destruct (nth_error (posts v) n) as [x|]; cbn [option_map];
      intros Heq; try discriminate Heq; injection Heq as <-;
      rewrite selected_add_class;
      (split; intros _; [exact Hnew | reflexivity]).
  - destruct (Nat.eqb_spec n (Z.to_nat (idx v))) as [Hold | Hold].
    + destruct (nth_error (posts v) n) as [x|]; cbn [option_map];
        [|discriminate].
      intros [= <-]. rewrite selected_remove_class.
      split; [discriminate | intros H; contradiction].
    + intros Hp. split; [|intros H; contradiction].
      intros Hsel. exfalso. apply Hold. apply (Honly n p Hp Hsel).
Qed.

Lemma one_post_selected_witness :
  exists v',
    _move_selection 1 three_posts = (Ok tt, v') /\
    forall n p, nth_error (posts v') n = Some p ->
                (selected p = true <-> n = Z.to_nat (idx v')).
Proof.
  apply (@one_post_selected 1 three_posts).
  - unfold valid. cbn. lia.
  - intros n p Hn Hsel.
    destruct n as [|[|[|n]]]; cbn in Hn;
      try (injection Hn as <-); try discriminate Hsel; try reflexivity.
    destruct n; discriminate Hn.
Defined.

(** X19.  Mounting a valid view keeps the index and selects the post
    under it. *)
Theorem mount_selects_current (v : PostView) :
  valid v ->
  exists v' p,
    on_mount v = (Ok tt, v') /\
    idx v' = idx v /\
    nth_error (posts v') (Z.to_nat (idx v)) = Some p /\
    selected p = true.
Proof.
  intros Hv. unfold on_mount. rewrite (move_selection_posts 0 Hv).
  unfold valid in Hv.
  assert (Hidx : ((idx v + 0) mod len (posts v))%Z = idx v)
    by (rewrite Z.add_0_r; apply Z.mod_small; exact Hv).
  rewrite Hidx.
  assert (Hin : Z.to_nat (idx v) < List.length (posts v))
    by (unfold len in Hv; lia).
  destruct (nth_error (posts v) (Z.to_nat (idx v))) as [x|] eqn:Hx;
    [|apply nth_error_None in Hx; lia].
  eexists. exists (add_class "selected" (remove_class "selected" x)).
  split; [reflexivity|]. cbn [idx posts].
  split; [reflexivity|]. split; [|apply selected_add_class].
  rewrite !nth_error_update, Nat.eqb_refl, Hx. reflexivity.
Qed.

Lemma mount_selects_current_witness :
  exists v' p,
    on_mount three_posts = (Ok tt, v') /\
    idx v' = idx three_posts /\
    nth_error (posts v') (Z.to_nat (idx three_posts)) = Some p /\
    selected p = true.
Proof.
  apply (@mount_selects_current three_posts). unfold valid. cbn. lia.
Defined.

End SelectionMore.
